(** * Trust Region Policy Optimization: a shallow embedding of [torch_rl/trpo.py]

    The numerical core of the TRPO update (advantage estimation, the
    matrix-free conjugate-gradient solver, the backtracking line search and
    the orchestrating [trpo_update]) is embedded over the real numbers.

    Conventions.
    - A float tensor is a [list R]; a tensor of shape (T,1) is the list of its
      T rows.  Arithmetic is exact: rounding, infinities and NaN are outside
      the model.  Where torch divides by zero (and yields inf or NaN) the model
      has [R]'s total [/]; a statement that meets such a division says that the
      divisor is 0 and says nothing of the quotient.
    - Elementwise operations and [torch.dot] are meant for operands of one
      shape, where torch neither raises nor broadcasts; the one broadcast
      product of the source has its own operation.
    - Indexing a tensor out of range raises IndexError in Python: indexed reads
      and writes return [option], [None] standing for the exception.
    - The neural networks and the differentiation engine are collaborators of
      the file; they enter as section variables. *)

From Stdlib Require Import Reals Lra Lia.
From stdpp Require Import base list option.

#[local] Open Scope R_scope.

#[global] Instance Rlt_decision : RelDecision Rlt := Rlt_dec.
#[global] Instance Rgt_decision : RelDecision Rgt := Rgt_dec.

(** ** Tensor operations used by the source *)

Module Tensor.

(** A 1-D float tensor. *)
Abbreviation vec := (list R).

(** [torch.zeros_like(b)] *)
Definition zeros_like (b : vec) : vec := (λ _, 0) <$> b.

(** [u + v], [u - v], [a * v], [-v], [v / s] on 1-D tensors of one shape. *)
Definition add (u v : vec) : vec := zip_with Rplus u v.
Definition sub (u v : vec) : vec := zip_with Rminus u v.
Definition scale (a : R) (v : vec) : vec := Rmult a <$> v.
Definition neg (v : vec) : vec := Ropp <$> v.
Definition div_scalar (v : vec) (s : R) : vec := (λ x, x / s) <$> v.

(** [v.sum()], [torch.dot(u, v)], [torch.norm(v)] (the 2-norm). *)
Definition sum (v : vec) : R := foldr Rplus 0 v.
Definition dot (u v : vec) : R := sum (zip_with Rmult u v).
Definition norm (v : vec) : R := sqrt (dot v v).

(** [v.mean()] and [v.std()]; torch's [std] is the sample standard
    deviation (Bessel's correction: the squared deviations are divided by
    n - 1). *)
Definition mean (v : vec) : R := sum v / INR (length v).
Definition std (v : vec) : R :=
  sqrt (sum ((λ x, (x - mean v) * (x - mean v)) <$> v) / (INR (length v) - 1)).

(** [row * col] for [row] of shape (n,) and [col] of shape (T,1): torch
    broadcasts the product to shape (T,n), entry (i,j) being
    [row[j] * col[i]]; the result is listed row by row. *)
Definition broadcast_mul (row col : vec) : vec :=
  col ≫= λ c, (λ x, x * c) <$> row.

(** [torch.Tensor(n, 1)]: n rows of uninitialised memory, whose content
    [junk] is arbitrary. *)
Definition uninitialized (junk : nat → R) (n : nat) : vec := junk <$> seq 0 n.

(** [t[i] = x] on a tensor: IndexError when [i] is out of range. *)
Definition store (t : vec) (i : nat) (x : R) : option vec :=
  if decide (i < length t)%nat then Some (<[i:=x]> t) else None.
#[global] Arguments store : simpl never.

End Tensor.

Import Tensor.

(** [for i in idx: s = body(s, i)], where the body may raise. *)
Fixpoint for_each {S : Type} (body : S → nat → option S) (idx : list nat) (s : S)
  : option S :=
  match idx with
  | [] => Some s
  | i :: rest => s' ← body s i; for_each body rest s'
  end.

(** ** Advantage estimator ([estimate_advantage], lines 33-52) *)

(** The three output buffers and the three running scalars of the loop. *)
Record gae_state := GaeState {
  returns : vec;
  deltas : vec;
  advantages : vec;
  prev_return : R;
  prev_value : R;
  prev_advantage : R
}.

Section AdvantageEstimator.
Context {Obs : Type}.
(** What the uninitialised memory of the three allocations of lines 37-39
    holds: [junk k i] is row [i] of the [k]-th one ([returns], [deltas],
    [advantages]). *)
Variable junk : nat → nat → R.
Variable value_net : list Obs → vec.

(** One pass of the loop body at index [i] (lines 45-51). *)
Definition gae_body (values rewards masks : vec) (gamma tau : R)
    (s : gae_state) (i : nat) : option gae_state :=
  r ← rewards !! i;
  m ← masks !! i;
  returns' ← store (returns s) i (r + gamma * prev_return s * m);
  v ← values !! i;
  deltas' ← store (deltas s) i (r + gamma * prev_value s * m - v);
  d ← deltas' !! i;
  advantages' ← store (advantages s) i (d + gamma * tau * prev_advantage s * m);
  pr ← returns' !! i;
  pa ← advantages' !! i;
  Some {| returns := returns'; deltas := deltas'; advantages := advantages';
          prev_return := pr; prev_value := v; prev_advantage := pa |}.

Definition estimate_advantage (states : list Obs) (rewards : vec)
    (actions : list nat) (masks : vec) (gamma tau : R) : option (vec * vec) :=
  let values := value_net states in
  let n := length actions in
  s ← for_each (gae_body values rewards masks gamma tau)
        (reverse (seq 0 (length rewards)))
        {| returns := uninitialized (junk 0%nat) n;
           deltas := uninitialized (junk 1%nat) n;
           advantages := uninitialized (junk 2%nat) n;
           prev_return := 0; prev_value := 0; prev_advantage := 0 |};
  Some (returns s, advantages s).

End AdvantageEstimator.

(** The recurrence in closed form, by recursion from the last time step:
    the head of the already computed tail is the running scalar, 0 past the
    end of the trajectory. *)
Fixpoint gae_returns (gamma : R) (rewards masks : vec) : vec :=
  match rewards, masks with
  | r :: rs, m :: ms =>
      let rest := gae_returns gamma rs ms in
      (r + gamma * hd 0 rest * m) :: rest
  | _, _ => []
  end.

Fixpoint gae_advantages (gamma tau : R) (values rewards masks : vec) : vec :=
  match values, rewards, masks with
  | v :: vs, r :: rs, m :: ms =>
      let rest := gae_advantages gamma tau vs rs ms in
      (r + gamma * hd 0 vs * m - v + gamma * tau * hd 0 rest * m) :: rest
  | _, _, _ => []
  end.

(** ** Conjugate gradient ([conjugate_gradient], lines 54-73) *)

Definition threshold : R := 1e-10.

(** The [for i in range(N)] loop with its [break], on the loop variables
    [x], [r], [p]. *)
Fixpoint cg_loop (Hv : vec → vec) (N : nat) (x r p : vec) : vec :=
  match N with
  | O => x
  | S N' =>
      let _Hv := Hv p in
      let alpha := dot r r / dot p _Hv in
      let x := add x (scale alpha p) in
      let r_next := sub r (scale alpha _Hv) in
      if decide (norm r < threshold) then x
      else
        let beta := dot r_next r_next / dot r r in
        let p := add r_next (scale beta p) in
        let r := r_next in
        cg_loop Hv N' x r p
  end.

Definition conjugate_gradient (Hv : vec → vec) (b : vec) (N : nat) : vec :=
  let x := zeros_like b in
  let r := sub b (Hv x) in
  let p := r in
  cg_loop Hv N x r p.

(** The iteration the specification describes, without the early exit: one
    update of (x, r, p), and the state after [k] updates from x = 0, r = b,
    p = r. *)
Definition cg_update (Hv : vec → vec) (s : vec * vec * vec) : vec * vec * vec :=
  let '(x, r, p) := s in
  let Hp := Hv p in
  let alpha := dot r r / dot p Hp in
  let r_next := sub r (scale alpha Hp) in
  let beta := dot r_next r_next / dot r r in
  (add x (scale alpha p), r_next, add r_next (scale beta p)).

Definition cg_iterate (Hv : vec → vec) (b : vec) (k : nat) : vec * vec * vec :=
  Nat.iter k (cg_update Hv) (zeros_like b, b, b).

Definition cg_x (s : vec * vec * vec) : vec := s.1.1.
Definition cg_r (s : vec * vec * vec) : vec := s.1.2.
Definition cg_p (s : vec * vec * vec) : vec := s.2.

(** ** The policy object *)

(** [Policy] (lines 9-19) extends [ConvNet] of [utils.py]; of the network only
    its flattened parameter vector matters here. *)
Record Policy := MkPolicy {
  params : vec;
  KL_bound : R;
  backtrack_coeff : R
}.

(** Modelled from the spec: [get_model_params] and [set_flat_params_to] of
    [utils.py], which is not among the sources.  The spec describes them as the
    two directions of the mapping between the structured parameters of a model
    and one flat vector: reading the vector, and writing a vector into the
    model. *)
Definition get_model_params (model : Policy) : vec := params model.

Definition set_flat_params_to (model : Policy) (flat : vec) : Policy :=
  {| params := flat; KL_bound := KL_bound model; backtrack_coeff := backtrack_coeff model |}.

(** ** Backtracking line search ([backtrack_line_search], lines 76-101) *)

(** The loss [f] is a closure over the model: [f(False)] evaluates it at the
    parameters the model holds at that moment, so the model is threaded
    through the loop.  The result is the model as the search leaves it and the
    returned pair. *)
Section LineSearch.
Variable f : bool → Policy → R.

Fixpoint bls_loop (m initial_loss : R) (x p : vec) (c : R)
    (attempts : nat) (alpha : R) (model : Policy) : Policy * (bool * vec) :=
  match attempts with
  | O => (model, (false, add x p))
  | S attempts' =>
      let candidate_params := add x (scale alpha p) in
      let model := set_flat_params_to model candidate_params in
      let curr_loss := f false model in
      let loss_diff := initial_loss - curr_loss in
      let expected_diff := m * alpha in
      let ratio := loss_diff / expected_diff in
      if decide (ratio > c ∧ loss_diff > 0)
      then (model, (true, candidate_params))
      else bls_loop m initial_loss x p c attempts' (alpha * alpha) model
  end.

Definition backtrack_line_search (model : Policy) (grad_f x p : vec)
    (alpha_0 c : R) (max : nat) : Policy * (bool * vec) :=
  let m := dot grad_f p in
  let alpha := alpha_0 in
  let initial_loss := f false model in
  bls_loop m initial_loss x p c max alpha model.

(** The acceptance test of the attempt that tries scale [alpha], for a
    baseline loss [initial_loss] and slope [m]. *)
Definition accepted (model : Policy) (m initial_loss : R) (x p : vec) (c alpha : R) : Prop :=
  let candidate_loss := f false (set_flat_params_to model (add x (scale alpha p))) in
  (initial_loss - candidate_loss) / (m * alpha) > c ∧ initial_loss - candidate_loss > 0.

End LineSearch.

(** Defaults of the keyword arguments [c] and [max]. *)
Definition default_c : R := 0.1.
Definition default_max : nat := 10%nat.

(** ** The update ([trpo_update], lines 104-185) *)

Definition damping : R := 1e-2.

(** [(v - v.mean()) / v.std()] (line 144). *)
Definition normalize (v : vec) : vec := (λ a, (a - mean v) / std v) <$> v.

(** Step scaling (lines 170-173). *)
Definition trpo_denom (direction g_vect : vec) : R := 0.5 * dot direction (neg g_vect).
Definition trpo_step_size (denom KL_bound : R) : R := sqrt (Rabs denom / KL_bound).
Definition trpo_full_step (direction : vec) (step_size : R) : vec := div_scalar direction step_size.

Section Orchestrator.
Context {Obs : Type}.
Variable junk : nat → nat → R.
(** The value network, and the collaborators of the policy: the
    log-probabilities [Policy.log_probs] computes from the network under a
    given parameter vector, and the differentiation engine, which supplies
    the gradient of a scalar function of the parameters at a point
    ([torch.autograd.grad]) and the second pass of [Hv] (the vector
    [flat_grad_grad_kl] for the parameters, the batch and a direction). *)
Variable value_net : list Obs → vec.
Variable log_probs_at : vec → list Obs → list nat → vec.
Variable autograd_grad : (vec → R) → vec → vec.
Variable flat_grad_grad_kl : vec → list Obs → vec → vec.

Definition log_probs (policy : Policy) (x : list Obs) (actions_t : list nat) : vec :=
  log_probs_at (params policy) x actions_t.

(** [Hv] (lines 123-141). *)
Definition Hv (policy : Policy) (obs_t : list Obs) (v : vec) : vec :=
  add (flat_grad_grad_kl (params policy) obs_t v) (scale damping v).

(** [loss_fn] (lines 148-157): both branches of [grad] compute the same
    number.  [actions_probs] has shape (T,) and [advantages] shape (T,1), so
    the product is broadcast. *)
Definition loss_fn (obs_t : list Obs) (actions_t : list nat)
    (actions_probs_old advantages : vec) (grad : bool) (policy : Policy) : R :=
  let actions_probs :=
    if grad then log_probs policy obs_t actions_t
    else log_probs policy obs_t actions_t in
  - mean (broadcast_mul (exp <$> sub actions_probs actions_probs_old) advantages).

(** The stages of the update between the normalisation and the commit, for
    the weights [advantages] that enter the loss. *)
Definition surrogate (policy : Policy) (obs_t : list Obs) (actions_t : list nat)
    (advantages : vec) : bool → Policy → R :=
  loss_fn obs_t actions_t (log_probs policy obs_t actions_t) advantages.

Definition trpo_g_vect (policy : Policy) (obs_t : list Obs) (actions_t : list nat)
    (advantages : vec) : vec :=
  autograd_grad
    (λ θ, surrogate policy obs_t actions_t advantages true (set_flat_params_to policy θ))
    (get_model_params policy).

Definition trpo_direction (policy : Policy) (obs_t : list Obs) (actions_t : list nat)
    (advantages : vec) : vec :=
  conjugate_gradient (Hv policy obs_t) (neg (trpo_g_vect policy obs_t actions_t advantages)) 10.

Definition trpo_step (policy : Policy) (obs_t : list Obs) (actions_t : list nat)
    (advantages : vec) : vec :=
  let g_vect := trpo_g_vect policy obs_t actions_t advantages in
  let direction := trpo_direction policy obs_t actions_t advantages in
  let denom := trpo_denom direction g_vect in
  let step_size := trpo_step_size denom (KL_bound policy) in
  trpo_full_step direction step_size.

(** The call of the line search (lines 175-181): the sixth positional
    argument, [policy.backtrack_coeff], is [alpha_0]. *)
Definition trpo_line_search (policy : Policy) (obs_t : list Obs) (actions_t : list nat)
    (advantages : vec) : Policy * (bool * vec) :=
  let g_vect := trpo_g_vect policy obs_t actions_t advantages in
  let full_step := trpo_step policy obs_t actions_t advantages in
  let old_params := get_model_params policy in
  backtrack_line_search (surrogate policy obs_t actions_t advantages)
    policy (neg g_vect) old_params full_step (backtrack_coeff policy)
    default_c default_max.

(** The result is the policy after the commit and the returned tensor;
    [None] when the estimator raised.  The conversions of lines 105-108 and
    [Policy.log_probs] are taken to succeed: the observations are image arrays
    of one shape, as many as the actions. *)
Definition trpo_update (policy : Policy) (observations : list Obs) (actions : list nat)
    (rewards mask : vec) (gamma tau : R) : option (Policy * vec) :=
  let actions_t := actions in
  let rewards_t := rewards in
  let obs_t := observations in
  '(advantages, returns) ←
      estimate_advantage junk value_net obs_t rewards_t actions_t mask gamma tau;
  let advantages := normalize advantages in
  let '(policy', (success, new_params)) :=
    trpo_line_search policy obs_t actions_t advantages in
  let policy' := set_flat_params_to policy' new_params in
  Some (policy', returns).

End Orchestrator.

(** ** Definitions used by the statements *)

(** The value a running scalar of the estimator's loop holds when the loop
    reaches index [i]: the entry computed at [i + 1], or the seed 0 when [i] is
    the last index. *)
Definition running (computed : vec) (i : nat) : R := nth (S i) computed 0.

(** State of the estimator's loop once the indices [k], ..., [T-1] are done. *)
Definition gae_inv (values rewards masks : vec) (gamma tau : R) (T k : nat)
    (s : gae_state) : Prop :=
  length (returns s) = T ∧ length (deltas s) = T ∧ length (advantages s) = T ∧
  drop k (returns s) = gae_returns gamma (drop k rewards) (drop k masks) ∧
  drop k (advantages s) =
    gae_advantages gamma tau (drop k values) (drop k rewards) (drop k masks) ∧
  prev_return s = hd 0 (drop k (returns s)) ∧
  prev_value s = hd 0 (drop k values) ∧
  prev_advantage s = hd 0 (drop k (advantages s)).

Definition all_zero (v : vec) : Prop := Forall (λ x, x = 0) v.
Definition all_one (v : vec) : Prop := Forall (λ x, x = 1) v.

(** The discounted sum r0 + gamma (r1 + gamma (r2 + ...)) of a sequence of
    rewards. *)
Fixpoint discounted_sum (gamma : R) (rewards : vec) : R :=
  match rewards with
  | [] => 0
  | r :: rs => r + gamma * discounted_sum gamma rs
  end.

(** A state of the estimator's loop whose three buffers have further rows
    behind those of [s]. *)
Definition gae_extend (more_returns more_deltas more_advantages : vec)
    (s : gae_state) : gae_state :=
  {| returns := returns s ++ more_returns;
     deltas := deltas s ++ more_deltas;
     advantages := advantages s ++ more_advantages;
     prev_return := prev_return s;
     prev_value := prev_value s;
     prev_advantage := prev_advantage s |}.

(** * Facts *)

(** ** Tensors *)

Lemma length_uninitialized junk n : length (uninitialized junk n) = n.
Proof. unfold uninitialized. by rewrite length_fmap, length_seq. Qed.

Lemma store_in_range (t : vec) i x :
  (i < length t)%nat → store t i x = Some (<[i:=x]> t).
Proof. intros Hi. unfold store. by rewrite decide_True. Qed.

Lemma drop_insert_here (t : vec) i x :
  (i < length t)%nat → drop i (<[i:=x]> t) = x :: drop (S i) t.
Proof.
  intros Hi.
  rewrite (drop_S (<[i:=x]> t) x i) by (by apply list_lookup_insert_eq).
  by rewrite drop_insert_lt by lia.
Qed.

Lemma hd_nth_0 (l : vec) : hd 0 l = nth 0 l 0.
Proof. by destruct l. Qed.

(** ** Advantage estimator *)

Lemma gae_returns_length gamma rewards masks :
  length rewards = length masks →
  length (gae_returns gamma rewards masks) = length rewards.
Proof.
  revert masks. induction rewards as [|r rs IH]; intros [|m ms] Hlen; simpl in *; try done.
  f_equal. apply IH. lia.
Qed.

Lemma gae_advantages_length gamma tau values rewards masks :
  length values = length rewards → length rewards = length masks →
  length (gae_advantages gamma tau values rewards masks) = length rewards.
Proof.
  revert values masks.
  induction rewards as [|r rs IH]; intros [|v vs] [|m ms] Hv Hm; simpl in *; try done.
  f_equal. apply IH; lia.
Qed.

Lemma gae_returns_nth gamma rewards masks i :
  length rewards = length masks → (i < length rewards)%nat →
  nth i (gae_returns gamma rewards masks) 0 =
    nth i rewards 0 + gamma * running (gae_returns gamma rewards masks) i * nth i masks 0.
Proof.
  unfold running. revert masks i.
  induction rewards as [|r rs IH]; intros [|m ms] i Hlen Hi; simpl in *; try lia.
  destruct i as [|i].
  - by rewrite hd_nth_0.
  - apply IH; lia.
Qed.

Lemma gae_advantages_nth gamma tau values rewards masks i :
  length values = length rewards → length rewards = length masks →
  (i < length rewards)%nat →
  nth i (gae_advantages gamma tau values rewards masks) 0 =
    (nth i rewards 0 + gamma * running values i * nth i masks 0 - nth i values 0)
    + gamma * tau * running (gae_advantages gamma tau values rewards masks) i * nth i masks 0.
Proof.
  unfold running. revert values masks i.
  induction rewards as [|r rs IH]; intros [|v vs] [|m ms] i Hv Hm Hi; simpl in *; try lia.
  destruct i as [|i].
  - by rewrite !hd_nth_0.
  - apply IH; lia.
Qed.

Section EstimatorLoop.
Variables (values rewards masks : vec) (gamma tau : R) (T : nat).
Hypothesis Hvalues : length values = T.
Hypothesis Hrewards : length rewards = T.
Hypothesis Hmasks : length masks = T.

Lemma gae_inv_start (junk_r junk_d junk_a : nat → R) :
  gae_inv values rewards masks gamma tau T T
    {| returns := uninitialized junk_r T; deltas := uninitialized junk_d T;
       advantages := uninitialized junk_a T;
       prev_return := 0; prev_value := 0; prev_advantage := 0 |}.
Proof.
  unfold gae_inv; simpl.
  rewrite !length_uninitialized.
  rewrite !(drop_ge _ T) by (rewrite ?length_uninitialized; lia).
  done.
Qed.

Lemma gae_body_inv s k :
  (k < T)%nat →
  gae_inv values rewards masks gamma tau T (S k) s →
  ∃ s', gae_body values rewards masks gamma tau s k = Some s'
        ∧ gae_inv values rewards masks gamma tau T k s'.
Proof.
  intros Hk (Hlr & Hld & Hla & Hr & Ha & Hpr & Hpv & Hpa).
  destruct (lookup_lt_is_Some_2 rewards k) as [r Er]; [lia|].
  destruct (lookup_lt_is_Some_2 masks k) as [m Em]; [lia|].
  destruct (lookup_lt_is_Some_2 values k) as [v Ev]; [lia|].
  unfold gae_body. rewrite Er, Em; simpl.
  repeat (first [ rewrite Ev
                | rewrite store_in_range by lia
                | rewrite list_lookup_insert_eq by lia ]; simpl).
  eexists; split; [reflexivity|].
  unfold gae_inv; simpl.
  rewrite !length_insert, !drop_insert_here by lia.
  rewrite (drop_S _ _ _ Er), (drop_S _ _ _ Em), (drop_S _ _ _ Ev); simpl.
  rewrite <- Hr, <- Ha, <- Hpr, <- Hpv, <- Hpa.
  done.
Qed.

Lemma gae_loop_inv k : ∀ s,
  (k ≤ T)%nat →
  gae_inv values rewards masks gamma tau T k s →
  ∃ s', for_each (gae_body values rewards masks gamma tau) (reverse (seq 0 k)) s = Some s'
        ∧ gae_inv values rewards masks gamma tau T 0 s'.
Proof.
  induction k as [|k IH]; intros s Hk Hinv.
  - exists s. by split.
  - rewrite seq_S, reverse_snoc; simpl.
    destruct (gae_body_inv s k) as (s1 & E1 & Hinv1); [lia|done|].
    rewrite E1; simpl. apply IH; [lia|done].
Qed.

End EstimatorLoop.

(** On a well-shaped trajectory the estimator returns the closed form. *)
Lemma estimate_advantage_closed_form {Obs} junk (value_net : list Obs → vec)
    states rewards actions masks gamma tau :
  length (value_net states) = length rewards →
  length actions = length rewards →
  length masks = length rewards →
  estimate_advantage junk value_net states rewards actions masks gamma tau =
    Some (gae_returns gamma rewards masks,
          gae_advantages gamma tau (value_net states) rewards masks).
Proof.
  intros Hv Ha Hm. unfold estimate_advantage. rewrite Ha.
  destruct (gae_loop_inv (value_net states) rewards masks gamma tau (length rewards)
              Hv eq_refl Hm (length rewards)
              {| returns := uninitialized (junk 0%nat) (length rewards);
                 deltas := uninitialized (junk 1%nat) (length rewards);
                 advantages := uninitialized (junk 2%nat) (length rewards);
                 prev_return := 0; prev_value := 0; prev_advantage := 0 |})
    as (s' & E & Hinv); [lia|by apply gae_inv_start|].
  rewrite E; simpl.
  destruct Hinv as (_ & _ & _ & Hr & Hadv & _).
  rewrite !drop_0 in Hr, Hadv. by rewrite Hr, Hadv.
Qed.

(** The estimator on runs: the four-step scenario with constant reward 1,
    masks [1; 1; 1; 0], value estimates 0, gamma = 0.99 and tau = 0.95; and
    trajectories whose masks or actions are too short, where an index is out
    of range. *)
Example estimate_advantage_four_steps :
  estimate_advantage (λ _ _, 0) (λ _ : list unit, [0; 0; 0; 0]) [(); (); (); ()]
      [1; 1; 1; 1] [0%nat; 0%nat; 0%nat; 0%nat] [1; 1; 1; 0] 0.99 0.95
    = Some ([3.940399; 2.9701; 1.99; 1], [3.656950355125; 2.82504025; 1.9405; 1]).
Proof.
  rewrite estimate_advantage_closed_form by done. simpl.
  do 2 f_equal; repeat (f_equal; try lra).
Qed.

Example estimate_advantage_short_masks :
  estimate_advantage (λ _ _, 0) (λ _ : list unit, [0; 0]) [(); ()]
      [1; 1] [0%nat; 0%nat] [1] (1/2) (1/2) = None.
Proof. reflexivity. Qed.

Example estimate_advantage_short_actions :
  estimate_advantage (λ _ _, 0) (λ _ : list unit, [0; 0]) [(); ()]
      [1; 1] [0%nat] [1; 1] (1/2) (1/2) = None.
Proof. reflexivity. Qed.

(** C3. For a trajectory of length T the estimator returns the pair
    (returns, advantages), each of length T, and at every index i < T the
    entries obey the backward recurrence: return[i] = reward[i] +
    gamma * prev_return * mask[i], delta[i] = reward[i] + gamma * prev_value *
    mask[i] - value[i], advantage[i] = delta[i] + gamma * tau * prev_advantage *
    mask[i], where the running scalars are the values computed at i + 1 and
    are 0 at i = T - 1. *)
Theorem estimate_advantage_recurrence {Obs} junk (value_net : list Obs → vec)
    states rewards actions masks gamma tau T :
  length (value_net states) = T → length rewards = T →
  length actions = T → length masks = T →
  ∃ rets advs,
    estimate_advantage junk value_net states rewards actions masks gamma tau
      = Some (rets, advs)
    ∧ length rets = T ∧ length advs = T
    ∧ ∀ i, (i < T)%nat →
        let values := value_net states in
        let delta := nth i rewards 0 + gamma * running values i * nth i masks 0
                     - nth i values 0 in
        nth i rets 0 = nth i rewards 0 + gamma * running rets i * nth i masks 0
        ∧ nth i advs 0 = delta + gamma * tau * running advs i * nth i masks 0.
Proof.
  intros Hv Hr Ha Hm.
  exists (gae_returns gamma rewards masks),
         (gae_advantages gamma tau (value_net states) rewards masks).
  split; [apply estimate_advantage_closed_form; congruence|].
  split; [rewrite gae_returns_length; congruence|].
  split; [rewrite gae_advantages_length; congruence|].
  intros i Hi; simpl. split.
  - apply gae_returns_nth; [congruence|lia].
  - apply gae_advantages_nth; [congruence|congruence|lia].
Qed.

Lemma estimate_advantage_recurrence_witness :
  let value_net := λ _ : list unit, [1; 0] in
  let states := [(); ()] in
  let rewards := [1; 1] in
  let actions := [0%nat; 0%nat] in
  let masks := [1; 1] in
  (length (value_net states) = 2%nat ∧ length rewards = 2%nat
   ∧ length actions = 2%nat ∧ length masks = 2%nat)
  ∧ ∃ rets advs,
      estimate_advantage (λ _ _, 0) value_net states rewards actions masks (1/2) (1/2)
        = Some (rets, advs)
      ∧ length rets = 2%nat ∧ length advs = 2%nat
      ∧ ∀ i, (i < 2)%nat →
          let values := value_net states in
          let delta := nth i rewards 0 + 1/2 * running values i * nth i masks 0
                       - nth i values 0 in
          nth i rets 0 = nth i rewards 0 + 1/2 * running rets i * nth i masks 0
          ∧ nth i advs 0 = delta + 1/2 * (1/2) * running advs i * nth i masks 0.
Proof.
  intros value_net states rewards actions masks.
  split; [done|].
  apply (estimate_advantage_recurrence (λ _ _, 0) value_net states rewards actions masks
           (1/2) (1/2) 2); reflexivity.
Defined.

Lemma all_zero_hd (v : vec) : all_zero v → hd 0 v = 0.
Proof. by intros [|x l Hx _]. Qed.

Lemma gae_returns_all_zero gamma rewards masks :
  all_zero rewards → all_zero (gae_returns gamma rewards masks).
Proof.
  intros Hz. revert masks.
  induction Hz as [|r rs Hr _ IH]; intros [|m ms]; simpl; try by constructor.
  constructor; [|apply IH].
  rewrite (all_zero_hd _ (IH ms)). lra.
Qed.

Lemma gae_advantages_all_zero gamma tau values rewards masks :
  all_zero values → all_zero rewards →
  all_zero (gae_advantages gamma tau values rewards masks).
Proof.
  intros Hv. revert rewards masks.
  induction Hv as [|v vs Hv Hvs IH]; intros rewards masks Hz; simpl; [by constructor|].
  destruct Hz as [|r rs Hr Hrs]; [by constructor|].
  destruct masks as [|m ms]; [by constructor|].
  constructor; [|by apply IH].
  rewrite (all_zero_hd _ (IH rs ms Hrs)), (all_zero_hd _ Hvs). lra.
Qed.

(** C9, as the code has it. For a trajectory of length T whose rewards are
    all zero and whose masks are all 1, for every gamma and tau, the returns are
    all zero whatever the value estimates are; the advantages are all zero when
    the value estimates are all zero as well. *)
Theorem zero_rewards_zero_returns {Obs} junk (value_net : list Obs → vec)
    states rewards actions masks gamma tau T :
  length (value_net states) = T → length rewards = T →
  length actions = T → length masks = T →
  all_zero rewards → all_one masks →
  ∃ rets advs,
    estimate_advantage junk value_net states rewards actions masks gamma tau
      = Some (rets, advs)
    ∧ length rets = T ∧ length advs = T
    ∧ all_zero rets
    ∧ (all_zero (value_net states) → all_zero advs).
Proof.
  intros Hv Hr Ha Hm Hz _.
  exists (gae_returns gamma rewards masks),
         (gae_advantages gamma tau (value_net states) rewards masks).
  split; [apply estimate_advantage_closed_form; congruence|].
  split; [rewrite gae_returns_length; congruence|].
  split; [rewrite gae_advantages_length; congruence|].
  split; [by apply gae_returns_all_zero|].
  intros Hvz. by apply gae_advantages_all_zero.
Qed.

Lemma zero_rewards_zero_returns_witness :
  let value_net := λ _ : list unit, [3; 2] in
  let states := [(); ()] in
  let rewards := [0; 0] in
  let actions := [0%nat; 1%nat] in
  let masks := [1; 1] in
  (length (value_net states) = 2%nat ∧ length rewards = 2%nat
   ∧ length actions = 2%nat ∧ length masks = 2%nat
   ∧ all_zero rewards ∧ all_one masks)
  ∧ ∃ rets advs,
      estimate_advantage (λ _ _, 0) value_net states rewards actions masks (1/2) 1
        = Some (rets, advs)
      ∧ length rets = 2%nat ∧ length advs = 2%nat
      ∧ all_zero rets
      ∧ (all_zero (value_net states) → all_zero advs).
Proof.
  intros value_net states rewards actions masks.
  assert (Hz : all_zero rewards) by (repeat constructor).
  assert (Ho : all_one masks) by (repeat constructor).
  split; [done|].
  apply (zero_rewards_zero_returns (λ _ _, 0) value_net states rewards actions masks
           (1/2) 1 2); done.
Defined.

(** C9 as stated fails: gamma = 1/2, tau = 1/2, one time step with reward 0,
    mask 1 and value estimate 1 give the advantage 0 + 1/2 * 0 * 1 - 1 = -1. *)
Lemma zero_rewards_advantages_counterexample :
  let value_net := λ _ : list unit, [1] in
  let rewards := [0] in
  let masks := [1] in
  0 < 1/2 < 1 ∧ 0 <= 1/2 <= 1 ∧ all_zero rewards ∧ all_one masks
  ∧ ∃ rets advs,
      estimate_advantage (λ _ _, 0) value_net [()] rewards [0%nat] masks (1/2) (1/2)
        = Some (rets, advs)
      ∧ advs = [-1] ∧ ¬ all_zero advs.
Proof.
  intros value_net rewards masks.
  split; [lra|]. split; [lra|].
  split; [repeat constructor|]. split; [repeat constructor|].
  exists [0], [-1].
  split.
  - rewrite estimate_advantage_closed_form by done. simpl.
    do 3 f_equal; lra.
  - split; [done|]. intros Hz. inversion Hz; lra.
Qed.

(** ** Conjugate gradient *)

Lemma sub_zeros_like (b : vec) : sub b (zeros_like b) = b.
Proof.
  unfold sub, zeros_like.
  induction b as [|x b IH]; simpl; [done|].
  f_equal; [lra|apply IH].
Qed.

Section ConjugateGradientLoop.
Variable Hv : vec → vec.

Lemma cg_loop_unfold N x r p :
  cg_loop Hv (S N) x r p =
    if decide (norm r < threshold) then cg_x (cg_update Hv (x, r, p))
    else let '(x', r', p') := cg_update Hv (x, r, p) in cg_loop Hv N x' r' p'.
Proof. simpl. by destruct (decide (norm r < threshold)). Qed.

(** No residual below the threshold: all [N] updates run. *)
Lemma cg_loop_runs N : ∀ x r p,
  (∀ j, (j < N)%nat → ¬ norm (cg_r (Nat.iter j (cg_update Hv) (x, r, p))) < threshold) →
  cg_loop Hv N x r p = cg_x (Nat.iter N (cg_update Hv) (x, r, p)).
Proof.
  induction N as [|N IH]; intros x r p Hno; [done|].
  rewrite cg_loop_unfold.
  rewrite decide_False by (apply (Hno 0%nat); lia).
  rewrite Nat.iter_succ_r.
  destruct (cg_update Hv (x, r, p)) as [[x' r'] p'] eqn:E.
  apply IH. intros j Hj. rewrite <- E, <- Nat.iter_succ_r. apply Hno. lia.
Qed.

(** The first residual below the threshold is met at iteration [k]: [x] is
    updated once more, and the loop is left. *)
Lemma cg_loop_breaks k : ∀ N x r p,
  (k < N)%nat →
  (∀ j, (j < k)%nat → ¬ norm (cg_r (Nat.iter j (cg_update Hv) (x, r, p))) < threshold) →
  norm (cg_r (Nat.iter k (cg_update Hv) (x, r, p))) < threshold →
  cg_loop Hv N x r p = cg_x (Nat.iter (S k) (cg_update Hv) (x, r, p)).
Proof.
  induction k as [|k IH]; intros [|N] x r p Hk Hno Hbrk; try lia;
    rewrite cg_loop_unfold.
  - by rewrite decide_True.
  - rewrite decide_False by (apply (Hno 0%nat); lia).
    rewrite (Nat.iter_succ_r (S k)).
    destruct (cg_update Hv (x, r, p)) as [[x' r'] p'] eqn:E.
    apply IH; [lia| |].
    + intros j Hj. rewrite <- E, <- Nat.iter_succ_r. apply Hno. lia.
    + by rewrite <- E, <- Nat.iter_succ_r.
Qed.

End ConjugateGradientLoop.

(** C2. For an operator that maps the zero vector to the zero vector (every
    linear operator does), [conjugate_gradient Hv b N] starts from x = 0, r = b,
    p = r; each iteration computes Hp = Hv p, alpha = (r.r)/(p.Hp), x + alpha p,
    r_next = r - alpha Hp, beta = (r_next.r_next)/(r.r), p = r_next + beta p and
    r = r_next; the loop is left at the first iteration k < N whose residual r
    before the update has norm below 1e-10, after x has been updated in that
    iteration, and the result is then the x of k + 1 updates; with no such
    iteration the result is the x of N updates. *)
Theorem conjugate_gradient_iterates (Hv : vec → vec) (b : vec) (N : nat) :
  Hv (zeros_like b) = zeros_like b →
  let s := cg_iterate Hv b in
  s 0%nat = (zeros_like b, b, b)
  ∧ (∀ k, let '(x, r, p) := s k in
          let Hp := Hv p in
          let alpha := dot r r / dot p Hp in
          let r_next := sub r (scale alpha Hp) in
          let beta := dot r_next r_next / dot r r in
          s (S k) = (add x (scale alpha p), r_next, add r_next (scale beta p)))
  ∧ (∀ k, (k < N)%nat →
          (∀ j, (j < k)%nat → ¬ norm (cg_r (s j)) < threshold) →
          norm (cg_r (s k)) < threshold →
          conjugate_gradient Hv b N = cg_x (s (S k)))
  ∧ ((∀ j, (j < N)%nat → ¬ norm (cg_r (s j)) < threshold) →
          conjugate_gradient Hv b N = cg_x (s N)).
Proof.
  intros Hzero s.
  assert (Hstart : conjugate_gradient Hv b N = cg_loop Hv N (zeros_like b) b b).
  { unfold conjugate_gradient. by rewrite Hzero, sub_zeros_like. }
  split; [done|]. split.
  - intros k. unfold s, cg_iterate. simpl.
    by destruct (Nat.iter k (cg_update Hv) (zeros_like b, b, b)) as [[x r] p].
  - split.
    + intros k Hk Hno Hbrk. rewrite Hstart. by apply cg_loop_breaks.
    + intros Hno. rewrite Hstart. by apply cg_loop_runs.
Qed.

Lemma norm_singleton (a : R) : 0 <= a → norm [a] = a.
Proof.
  intros Ha. unfold norm, dot, sum; simpl.
  replace (a * a + 0) with (a * a) by lra. by apply sqrt_square.
Qed.

Lemma conjugate_gradient_iterates_witness :
  let Hv := scale 2 in
  let b := [2] in
  Hv (zeros_like b) = zeros_like b
  ∧ (¬ norm b < threshold)
  ∧ conjugate_gradient Hv b 1 = cg_x (cg_iterate Hv b 1)
  ∧ cg_x (cg_iterate Hv b 1) = [1].
Proof.
  intros Hv b.
  assert (Hzero : Hv (zeros_like b) = zeros_like b).
  { unfold Hv, b, scale, zeros_like; simpl. f_equal. lra. }
  assert (Hbig : ¬ norm b < threshold).
  { unfold b. rewrite norm_singleton by lra. unfold threshold. lra. }
  split; [done|]. split; [done|]. split.
  - destruct (conjugate_gradient_iterates Hv b 1 Hzero) as (_ & _ & _ & Hruns).
    apply Hruns. intros j Hj. replace j with 0%nat by lia. exact Hbig.
  - unfold cg_iterate, cg_x, Hv, b, cg_update, dot, sum, add, sub, scale, zeros_like; simpl.
    f_equal. field.
Defined.

(** The order of the test and the updates, on a run: a right-hand side whose
    norm is already below the threshold still moves [x] once. *)
Example conjugate_gradient_small_rhs :
  conjugate_gradient (scale 2) [/ 10 ^ 11] 10 = [/ (2 * 10 ^ 11)].
Proof.
  assert (Hzero : scale 2 (zeros_like [/ 10 ^ 11]) = zeros_like [/ 10 ^ 11]).
  { unfold scale, zeros_like; simpl. f_equal. lra. }
  unfold conjugate_gradient. rewrite Hzero, sub_zeros_like.
  rewrite cg_loop_unfold, decide_True.
  - unfold cg_x, cg_update, dot, sum, add, scale, zeros_like; simpl.
    f_equal. field.
  - rewrite norm_singleton by lra. unfold threshold. lra.
Qed.

(** ** The policy object and the line search *)

Lemma set_flat_params_to_twice model u v :
  set_flat_params_to (set_flat_params_to model u) v = set_flat_params_to model v.
Proof. done. Qed.

Lemma set_flat_params_to_same model x :
  get_model_params model = x → set_flat_params_to model x = model.
Proof. destruct model; simpl; intros <-; done. Qed.

Lemma pow_two_pow_succ (alpha : R) (k : nat) :
  (alpha * alpha) ^ (2 ^ k) = alpha ^ (2 ^ S k).
Proof.
  rewrite Nat.pow_succ_r', pow_mult. f_equal. simpl; lra.
Qed.

Section LineSearchLoop.
Variable f : bool → Policy → R.
Variables (m initial_loss : R) (x p : vec) (c : R).

(** The test of an attempt does not depend on what earlier attempts wrote
    into the model. *)
Lemma accepted_model model model' alpha :
  (∀ v, set_flat_params_to model' v = set_flat_params_to model v) →
  accepted f model' m initial_loss x p c alpha ↔ accepted f model m initial_loss x p c alpha.
Proof. intros Hset. unfold accepted. by rewrite Hset. Qed.

Lemma bls_loop_accept attempts alpha model :
  accepted f model m initial_loss x p c alpha →
  bls_loop f m initial_loss x p c (S attempts) alpha model =
    (set_flat_params_to model (add x (scale alpha p)), (true, add x (scale alpha p))).
Proof. intros Hacc. simpl. by rewrite decide_True. Qed.

Lemma bls_loop_reject attempts alpha model :
  ¬ accepted f model m initial_loss x p c alpha →
  bls_loop f m initial_loss x p c (S attempts) alpha model =
    bls_loop f m initial_loss x p c attempts (alpha * alpha)
      (set_flat_params_to model (add x (scale alpha p))).
Proof. intros Hrej. simpl. by rewrite decide_False. Qed.

(** After [j] rejected attempts the loop goes on with the scale
    [alpha ^ (2 ^ j)]. *)
Lemma bls_loop_after_rejections j : ∀ attempts alpha model,
  (j ≤ attempts)%nat →
  (∀ k, (k < j)%nat → ¬ accepted f model m initial_loss x p c (alpha ^ (2 ^ k))) →
  ∃ model', (∀ v, set_flat_params_to model' v = set_flat_params_to model v)
    ∧ bls_loop f m initial_loss x p c attempts alpha model =
      bls_loop f m initial_loss x p c (attempts - j) (alpha ^ (2 ^ j)) model'.
Proof.
  induction j as [|j IH]; intros attempts alpha model Hj Hrej.
  - exists model. split; [done|].
    rewrite Nat.sub_0_r. simpl. by rewrite Rmult_1_r.
  - destruct attempts as [|attempts]; [lia|].
    assert (Hfirst : ¬ accepted f model m initial_loss x p c alpha).
    { intros Hacc. apply (Hrej 0%nat); [lia|]. simpl. by rewrite Rmult_1_r. }
    rewrite (bls_loop_reject _ _ _ Hfirst).
    destruct (IH attempts (alpha * alpha)
                (set_flat_params_to model (add x (scale alpha p)))) as (model' & Hset & E).
    + lia.
    + intros k Hk Hacc. apply (Hrej (S k)); [lia|].
      rewrite <- pow_two_pow_succ. by apply (accepted_model model) in Hacc.
    + exists model'. split; [intros v; by rewrite Hset|].
      rewrite E, pow_two_pow_succ. done.
Qed.

(** With every attempt rejected the loop falls back to the full step. *)
Lemma bls_loop_exhausted attempts : ∀ alpha model,
  (∀ k, (k < attempts)%nat → ¬ accepted f model m initial_loss x p c (alpha ^ (2 ^ k))) →
  (bls_loop f m initial_loss x p c attempts alpha model).2 = (false, add x p).
Proof.
  intros alpha model Hrej.
  destruct (bls_loop_after_rejections attempts attempts alpha model) as (model' & _ & E);
    [lia|done|].
  rewrite E, Nat.sub_diag. done.
Qed.

(** The parameters the loop returns differ from [x] as soon as the full
    step moves [x]: an accepted candidate has a loss below the loss at [x]. *)
Lemma bls_loop_moves model attempts : ∀ alpha model',
  get_model_params model = x →
  initial_loss = f false model →
  (∀ v, set_flat_params_to model' v = set_flat_params_to model v) →
  add x p ≠ x →
  (bls_loop f m initial_loss x p c attempts alpha model').2.2 ≠ x.
Proof.
  intros alpha model' Hx Hinit Hset Hmove. revert alpha model' Hset.
  induction attempts as [|attempts IH]; intros alpha model' Hset; [done|].
  destruct (decide (accepted f model' m initial_loss x p c alpha)) as [Hacc|Hrej].
  - rewrite (bls_loop_accept _ _ _ Hacc); simpl.
    intros Hcand. destruct Hacc as [_ Hgain]. revert Hgain.
    rewrite Hcand, Hset, (set_flat_params_to_same _ _ Hx), Hinit. lra.
  - rewrite (bls_loop_reject _ _ _ Hrej).
    apply IH. intros v. by rewrite set_flat_params_to_twice.
Qed.

End LineSearchLoop.

Lemma add_moves (x p : vec) i a :
  (i < length x)%nat → p !! i = Some a → a ≠ 0 → add x p ≠ x.
Proof.
  unfold add. revert p i.
  induction x as [|x0 x IH]; intros [|p0 p] i Hi Hp Ha; simpl in *; try done; try lia.
  destruct i as [|i]; simpl in *.
  - injection Hp as ->. intros Heq. injection Heq as Heq _. lra.
  - intros Heq. injection Heq as _ Heq. revert Heq. apply (IH p i); [lia|done|done].
Qed.

(** C4. Called on a model that holds x0, with m = grad.direction and the
    baseline loss taken at x0, the line search tries the scales
    alpha_0 ^ (2 ^ j), j = 0, 1, ...: at the first attempt j < max whose
    candidate x0 + scale * direction satisfies
    (baseline - candidate loss) / (m * scale) > control and
    baseline - candidate loss > 0 it returns (True, that candidate); when no
    attempt below max is accepted it returns (False, x0 + direction). *)
Theorem backtrack_line_search_first_accepted
    (f : bool → Policy → R) model grad_f x p alpha_0 c max :
  get_model_params model = x →
  let m := dot grad_f p in
  let baseline_loss := f false (set_flat_params_to model x) in
  let scale_at (j : nat) := alpha_0 ^ (2 ^ j) in
  let accepts (j : nat) := accepted f model m baseline_loss x p c (scale_at j) in
  (∀ j, (j < max)%nat → (∀ k, (k < j)%nat → ¬ accepts k) → accepts j →
     (backtrack_line_search f model grad_f x p alpha_0 c max).2
       = (true, add x (scale (scale_at j) p)))
  ∧ ((∀ j, (j < max)%nat → ¬ accepts j) →
     (backtrack_line_search f model grad_f x p alpha_0 c max).2 = (false, add x p)).
Proof.
  intros Hx m baseline_loss scale_at accepts.
  unfold backtrack_line_search. fold m.
  replace (f false model) with baseline_loss
    by (unfold baseline_loss; by rewrite (set_flat_params_to_same _ _ Hx)).
  split.
  - intros j Hj Hrej Hacc.
    destruct (bls_loop_after_rejections f m baseline_loss x p c j max alpha_0 model)
      as (model' & Hset & E); [lia|done|].
    rewrite E. replace (max - j)%nat with (S (max - j - 1)) by lia.
    rewrite bls_loop_accept; [done|].
    by apply (accepted_model f m baseline_loss x p c model).
  - intros Hrej. by apply bls_loop_exhausted.
Qed.

(** A loss that is the sum of the parameters, searched from [0]: along [-1]
    the first attempt is accepted, along [1] none is. *)
Lemma backtrack_line_search_first_accepted_witness :
  let f := λ (_ : bool) (model : Policy), sum (params model) in
  let model := {| params := [0]; KL_bound := 1/1000; backtrack_coeff := 1/2 |} in
  get_model_params model = [0]
  ∧ accepted f model (dot [-1] [-1]) (f false (set_flat_params_to model [0]))
      [0] [-1] (1/10) ((1/2) ^ (2 ^ 0))
  ∧ (backtrack_line_search f model [-1] [0] [-1] (1/2) (1/10) 10).2
      = (true, add [0] (scale ((1/2) ^ (2 ^ 0)) [-1]))
  ∧ (∀ j, (j < 10)%nat →
       ¬ accepted f model (dot [-1] [1]) (f false (set_flat_params_to model [0]))
           [0] [1] (1/10) ((1/2) ^ (2 ^ j)))
  ∧ (backtrack_line_search f model [-1] [0] [1] (1/2) (1/10) 10).2
      = (false, add [0] [1]).
Proof.
  intros f model.
  assert (Hx : get_model_params model = [0]) by done.
  assert (Hacc : accepted f model (dot [-1] [-1]) (f false (set_flat_params_to model [0]))
                   [0] [-1] (1/10) ((1/2) ^ (2 ^ 0))).
  { unfold accepted, f, dot, sum, add, scale; simpl. split; [|lra].
    replace ((0 + 0 - (0 + 1 / 2 * 1 * -1 + 0)) / ((-1 * -1 + 0) * (1 / 2 * 1)))
      with 1 by field. lra. }
  assert (Hrej : ∀ j, (j < 10)%nat →
       ¬ accepted f model (dot [-1] [1]) (f false (set_flat_params_to model [0]))
           [0] [1] (1/10) ((1/2) ^ (2 ^ j))).
  { intros j _ [_ Hgain]. revert Hgain.
    unfold f, sum, add, scale; simpl.
    assert (0 < (1/2) ^ (2 ^ j)) by (apply pow_lt; lra). lra. }
  split; [done|]. split; [done|]. split.
  - destruct (backtrack_line_search_first_accepted f model [-1] [0] [-1] (1/2) (1/10) 10 Hx)
      as [Hfirst _].
    apply (Hfirst 0%nat); [lia| |done]. intros k Hk. lia.
  - split; [done|].
    destruct (backtrack_line_search_first_accepted f model [-1] [0] [1] (1/2) (1/10) 10 Hx)
      as [_ Hnone].
    by apply Hnone.
Defined.

Lemma iter_square (alpha : R) (j : nat) :
  Nat.iter j (λ scale, scale * scale) alpha = alpha ^ (2 ^ j).
Proof.
  induction j as [|j IH]; [simpl; lra|].
  rewrite Nat.iter_succ, IH, Nat.pow_succ_r', <- pow_add. f_equal. lia.
Qed.

(** The search returns at the first accepted attempt, with the model holding
    the candidate of that attempt. *)
Lemma backtrack_line_search_accepts (f : bool → Policy → R)
    model grad_f x p alpha_0 c max j :
  (j < max)%nat →
  (∀ k, (k < j)%nat →
     ¬ accepted f model (dot grad_f p) (f false model) x p c (alpha_0 ^ (2 ^ k))) →
  accepted f model (dot grad_f p) (f false model) x p c (alpha_0 ^ (2 ^ j)) →
  backtrack_line_search f model grad_f x p alpha_0 c max
    = (set_flat_params_to model (add x (scale (alpha_0 ^ (2 ^ j)) p)),
       (true, add x (scale (alpha_0 ^ (2 ^ j)) p))).
Proof.
  intros Hj Hrej Hacc. unfold backtrack_line_search.
  destruct (bls_loop_after_rejections f (dot grad_f p) (f false model) x p c
              j max alpha_0 model) as (model' & Hset & E); [lia|done|].
  rewrite E. replace (max - j)%nat with (S (max - j - 1)) by lia.
  rewrite bls_loop_accept by (by apply (accepted_model f _ _ x p c model)).
  by rewrite Hset.
Qed.

(** C8. The scale of an attempt is the square of the scale of the attempt
    before it, so the attempt that follows j rejected ones tries
    alpha_0 ^ (2 ^ j): when it is the first accepted one the search returns
    (True, x + alpha_0 ^ (2 ^ j) p) and the model holds that candidate.
    [trpo_update] hands the policy's backtracking coefficient to the search as
    alpha_0 and uses it nowhere else: its search returns
    old_params + coeff ^ (2 ^ i) full_step at the first accepted attempt i, not
    old_params + coeff ^ (i + 1) full_step. *)
Theorem line_search_scale_squares {Obs}
    (log_probs_at : vec → list Obs → list nat → vec)
    (autograd_grad : (vec → R) → vec → vec)
    (flat_grad_grad_kl : vec → list Obs → vec → vec)
    (policy : Policy) (obs_t : list Obs) (actions_t : list nat) (advantages : vec)
    (f : bool → Policy → R) model grad_f x p alpha_0 c max j :
  (j < max)%nat →
  (∀ k, (k < j)%nat →
     ¬ accepted f model (dot grad_f p) (f false model) x p c (alpha_0 ^ (2 ^ k))) →
  accepted f model (dot grad_f p) (f false model) x p c (alpha_0 ^ (2 ^ j)) →
  Nat.iter j (λ scale, scale * scale) alpha_0 = alpha_0 ^ (2 ^ j)
  ∧ backtrack_line_search f model grad_f x p alpha_0 c max
      = (set_flat_params_to model (add x (scale (alpha_0 ^ (2 ^ j)) p)),
         (true, add x (scale (alpha_0 ^ (2 ^ j)) p)))
  ∧ (let loss := surrogate log_probs_at policy obs_t actions_t advantages in
     let g_vect := trpo_g_vect log_probs_at autograd_grad policy obs_t actions_t
                     advantages in
     let full_step := trpo_step log_probs_at autograd_grad flat_grad_grad_kl
                        policy obs_t actions_t advantages in
     let old_params := get_model_params policy in
     let coeff := backtrack_coeff policy in
     ∀ i, (i < default_max)%nat →
       (∀ k, (k < i)%nat →
          ¬ accepted loss policy (dot (neg g_vect) full_step) (loss false policy)
              old_params full_step default_c (coeff ^ (2 ^ k))) →
       accepted loss policy (dot (neg g_vect) full_step) (loss false policy)
         old_params full_step default_c (coeff ^ (2 ^ i)) →
       trpo_line_search log_probs_at autograd_grad flat_grad_grad_kl
           policy obs_t actions_t advantages
         = (set_flat_params_to policy (add old_params (scale (coeff ^ (2 ^ i)) full_step)),
            (true, add old_params (scale (coeff ^ (2 ^ i)) full_step)))).
Proof.
  intros Hj Hrej Hacc.
  split; [apply iter_square|].
  split; [by apply backtrack_line_search_accepts|].
  intros loss g_vect full_step old_params coeff i Hi Hrej' Hacc'.
  unfold trpo_line_search. by apply backtrack_line_search_accepts.
Qed.

(** A loss t^2 - 3/10 t of the one parameter t, searched from 0 along 1 with
    alpha_0 = 1/2 and c = 1/10: an attempt is accepted when its scale is below
    1/5.  The scales 1/2 and 1/4 are rejected and the third attempt is accepted
    at 1/16 = (1/2)^4; a scale of (1/2)^3 = 1/8 would have been accepted too. *)
Lemma line_search_scale_squares_witness :
  let f := λ (_ : bool) (model : Policy),
             hd 0 (params model) * hd 0 (params model) - 3/10 * hd 0 (params model) in
  let model := {| params := [0]; KL_bound := 1/1000; backtrack_coeff := 1/2 |} in
  ((2 < 10)%nat
   ∧ (∀ k, (k < 2)%nat →
        ¬ accepted f model (dot [1] [1]) (f false model) [0] [1] (1/10) ((1/2) ^ (2 ^ k)))
   ∧ accepted f model (dot [1] [1]) (f false model) [0] [1] (1/10) ((1/2) ^ (2 ^ 2))
   ∧ accepted f model (dot [1] [1]) (f false model) [0] [1] (1/10) ((1/2) ^ 3))
  ∧ backtrack_line_search f model [1] [0] [1] (1/2) (1/10) 10
      = (set_flat_params_to model (add [0] (scale ((1/2) ^ (2 ^ 2)) [1])),
         (true, add [0] (scale ((1/2) ^ (2 ^ 2)) [1])))
  ∧ add [0] (scale ((1/2) ^ (2 ^ 2)) [1]) = [1/16].
Proof.
  intros f model.
  assert (Hacc_iff : ∀ a, 0 < a →
            accepted f model (dot [1] [1]) (f false model) [0] [1] (1/10) a ↔ a < 1/5).
  { intros a Ha. unfold accepted, f, dot, sum, add, scale; simpl.
    replace ((0 * 0 - 3 / 10 * 0 - ((0 + a * 1) * (0 + a * 1) - 3 / 10 * (0 + a * 1)))
             / ((1 * 1 + 0) * a)) with (3/10 - a) by (field; lra).
    split; [intros [Hratio _]; lra|intros Hlt; split; [lra|nra]]. }
  assert (Hrej : ∀ k, (k < 2)%nat →
            ¬ accepted f model (dot [1] [1]) (f false model) [0] [1] (1/10)
                ((1/2) ^ (2 ^ k))).
  { intros k Hk Hacc. apply Hacc_iff in Hacc; [|apply pow_lt; lra].
    destruct k as [|[|k]]; [simpl in Hacc; lra|simpl in Hacc; lra|lia]. }
  assert (Hacc : accepted f model (dot [1] [1]) (f false model) [0] [1] (1/10)
                   ((1/2) ^ (2 ^ 2))).
  { apply Hacc_iff; [apply pow_lt; lra|simpl; lra]. }
  assert (Hdecay : accepted f model (dot [1] [1]) (f false model) [0] [1] (1/10)
                     ((1/2) ^ 3)).
  { apply Hacc_iff; [apply pow_lt; lra|simpl; lra]. }
  split; [split; [lia|split; [exact Hrej|split; [exact Hacc|exact Hdecay]]]|].
  destruct (line_search_scale_squares (Obs := unit)
              (λ _ _ _, []) (λ _ _, []) (λ _ _ _, []) model [] [] []
              f model [1] [0] [1] (1/2) (1/10) 10 2) as (_ & Hsearch & _);
    [lia|exact Hrej|exact Hacc|].
  split; [exact Hsearch|].
  unfold add, scale; simpl. f_equal. lra.
Defined.

(** ** The trust-region step *)

Lemma dot_self_nonneg (v : vec) : 0 <= dot v v.
Proof.
  unfold dot, sum. induction v as [|x v IH]; simpl; [lra|]. nra.
Qed.

Lemma dot_div_scalar (v : vec) (s : R) :
  s ≠ 0 → dot (div_scalar v s) (div_scalar v s) = dot v v / (s * s).
Proof.
  intros Hs. unfold dot, sum, div_scalar.
  induction v as [|x v IH]; simpl.
  - field. done.
  - transitivity (x / s * (x / s) + foldr Rplus 0 (zip_with Rmult v v) / (s * s)).
    + f_equal. exact IH.
    + field. done.
Qed.

Lemma norm_div_scalar (v : vec) (s : R) :
  0 < s → norm (div_scalar v s) = norm v * / s.
Proof.
  intros Hs. unfold norm.
  rewrite dot_div_scalar by lra.
  rewrite sqrt_div by (first [apply dot_self_nonneg | nra]).
  rewrite sqrt_square by lra. done.
Qed.

Lemma step_radicand_nonneg denom KL : 0 < KL → 0 <= Rabs denom / KL.
Proof.
  intros HKL. apply Rmult_le_pos; [apply Rabs_pos|].
  left. by apply Rinv_0_lt_compat.
Qed.

Lemma trpo_step_size_pos denom KL : 0 < KL → denom ≠ 0 → 0 < trpo_step_size denom KL.
Proof.
  intros HKL Hd. unfold trpo_step_size. apply sqrt_lt_R0.
  apply Rmult_lt_0_compat; [by apply Rabs_pos_lt|by apply Rinv_0_lt_compat].
Qed.

Lemma trpo_step_size_zero KL : trpo_step_size 0 KL = 0.
Proof.
  unfold trpo_step_size. rewrite Rabs_R0.
  replace (0 / KL) with 0 by (unfold Rdiv; lra). apply sqrt_0.
Qed.

Lemma trpo_step_size_lt denom1 KL1 denom2 KL2 :
  0 < KL1 → 0 < KL2 → Rabs denom1 / KL1 < Rabs denom2 / KL2 →
  trpo_step_size denom1 KL1 < trpo_step_size denom2 KL2.
Proof.
  intros H1 H2 Hlt. unfold trpo_step_size.
  apply sqrt_lt_1; [by apply step_radicand_nonneg|by apply step_radicand_nonneg|done].
Qed.

(** C6. With d the direction of the conjugate gradient and g the gradient of
    the surrogate, [trpo_update] computes denom = 0.5 (d . (-g)), step_size =
    sqrt(|denom| / KL_bound) and full_step = d / step_size.  For a positive
    KL_bound the argument of the square root is never negative, so the step size
    is the square root of a non-negative number also when denom <= 0, where it
    equals sqrt(-denom / KL_bound); it is positive whenever denom is not 0. *)
Theorem trpo_step_size_absolute_value {Obs}
    (log_probs_at : vec → list Obs → list nat → vec)
    (autograd_grad : (vec → R) → vec → vec)
    (flat_grad_grad_kl : vec → list Obs → vec → vec)
    (policy : Policy) (obs_t : list Obs) (actions_t : list nat) (advantages : vec) :
  0 < KL_bound policy →
  let g := trpo_g_vect log_probs_at autograd_grad policy obs_t actions_t advantages in
  let d := trpo_direction log_probs_at autograd_grad flat_grad_grad_kl
             policy obs_t actions_t advantages in
  let denom := 0.5 * dot d (neg g) in
  let step_size := sqrt (Rabs denom / KL_bound policy) in
  trpo_step log_probs_at autograd_grad flat_grad_grad_kl policy obs_t actions_t advantages
    = (λ x, x / step_size) <$> d
  ∧ 0 <= Rabs denom / KL_bound policy
  ∧ step_size * step_size = Rabs denom / KL_bound policy
  ∧ (denom <= 0 → step_size = sqrt (- denom / KL_bound policy)
                  ∧ 0 <= - denom / KL_bound policy)
  ∧ (denom ≠ 0 → 0 < step_size).
Proof.
  intros HKL g d denom step_size.
  assert (Hrad : 0 <= Rabs denom / KL_bound policy) by (by apply step_radicand_nonneg).
  split; [done|]. split; [done|]. split; [by apply sqrt_sqrt|]. split.
  - intros Hneg. unfold step_size.
    rewrite Rabs_left1 in * by done. done.
  - intros Hd. by apply trpo_step_size_pos.
Qed.

Lemma trpo_step_size_absolute_value_witness :
  let policy := {| params := [0]; KL_bound := 1/1000; backtrack_coeff := 8/10 |} in
  let g := trpo_g_vect (Obs := unit) (λ _ _ _, [0]) (λ _ _, [1]) policy [()] [0%nat] [1] in
  let d := trpo_direction (Obs := unit) (λ _ _ _, [0]) (λ _ _, [1]) (λ _ _ v, v)
             policy [()] [0%nat] [1] in
  0 < KL_bound policy
  ∧ 0 <= Rabs (0.5 * dot d (neg g)) / KL_bound policy
  ∧ (0.5 * dot d (neg g) ≠ 0 → 0 < sqrt (Rabs (0.5 * dot d (neg g)) / KL_bound policy)).
Proof.
  intros policy g d.
  assert (HKL : 0 < KL_bound policy) by (simpl; lra).
  split; [done|].
  destruct (trpo_step_size_absolute_value (Obs := unit) (λ _ _ _, [0]) (λ _ _, [1])
              (λ _ _ v, v) policy [()] [0%nat] [1] HKL) as (_ & Hrad & _ & _ & Hpos).
  split; [exact Hrad|exact Hpos].
Defined.

Lemma full_step_norm d denom KL :
  0 < KL → denom ≠ 0 →
  norm (trpo_full_step d (trpo_step_size denom KL)) = norm d * / trpo_step_size denom KL.
Proof.
  intros HKL Hd. unfold trpo_full_step.
  apply norm_div_scalar. by apply trpo_step_size_pos.
Qed.

Lemma Rabs_pos_neq (a : R) : 0 < Rabs a → a ≠ 0.
Proof. intros Ha ->. rewrite Rabs_R0 in Ha. lra. Qed.

(** C7, as the code has it. With the direction d fixed, the factor
    1 / step_size applied to d, and with it the norm of full_step =
    d / sqrt(|denom| / KL_bound), grows with KL_bound and shrinks as |denom|
    grows. *)
Theorem trpo_full_step_monotone (d : vec) (denom1 denom2 KL1 KL2 : R) :
  0 < KL1 → KL1 < KL2 → 0 < Rabs denom1 → Rabs denom1 < Rabs denom2 →
  / trpo_step_size denom1 KL1 < / trpo_step_size denom1 KL2
  ∧ / trpo_step_size denom2 KL1 < / trpo_step_size denom1 KL1
  ∧ norm (trpo_full_step d (trpo_step_size denom1 KL1))
      <= norm (trpo_full_step d (trpo_step_size denom1 KL2))
  ∧ norm (trpo_full_step d (trpo_step_size denom2 KL1))
      <= norm (trpo_full_step d (trpo_step_size denom1 KL1))
  ∧ (0 < norm d →
      norm (trpo_full_step d (trpo_step_size denom1 KL1))
        < norm (trpo_full_step d (trpo_step_size denom1 KL2))
      ∧ norm (trpo_full_step d (trpo_step_size denom2 KL1))
        < norm (trpo_full_step d (trpo_step_size denom1 KL1))).
Proof.
  intros HKL1 HKL Hd1 Hd.
  assert (HKL2 : 0 < KL2) by lra.
  assert (Hn1 : denom1 ≠ 0) by (by apply Rabs_pos_neq).
  assert (Hn2 : denom2 ≠ 0) by (apply Rabs_pos_neq; lra).
  pose proof (trpo_step_size_pos denom1 KL1 HKL1 Hn1) as Hs11.
  pose proof (trpo_step_size_pos denom1 KL2 HKL2 Hn1) as Hs12.
  pose proof (trpo_step_size_pos denom2 KL1 HKL1 Hn2) as Hs21.
  assert (HinvKL : / KL2 < / KL1) by (apply Rinv_lt_contravar; nra).
  assert (HinvKL1 : 0 < / KL1) by (by apply Rinv_0_lt_compat).
  assert (HltKL : trpo_step_size denom1 KL2 < trpo_step_size denom1 KL1).
  { apply trpo_step_size_lt; [done|done|]. unfold Rdiv. nra. }
  assert (Hltden : trpo_step_size denom1 KL1 < trpo_step_size denom2 KL1).
  { apply trpo_step_size_lt; [done|done|]. unfold Rdiv. nra. }
  assert (Hscale_KL : / trpo_step_size denom1 KL1 < / trpo_step_size denom1 KL2)
    by (apply Rinv_lt_contravar; nra).
  assert (Hscale_den : / trpo_step_size denom2 KL1 < / trpo_step_size denom1 KL1)
    by (apply Rinv_lt_contravar; nra).
  assert (Hnorm : 0 <= norm d) by apply sqrt_pos.
  rewrite !full_step_norm by done.
  split; [done|]. split; [done|].
  split; [nra|]. split; [nra|].
  intros Hpos. split; nra.
Qed.

Lemma sqrt_quarter : sqrt (1 / 4) = 1 / 2.
Proof.
  replace (1 / 4) with (1 / 2 * (1 / 2)) by lra. apply sqrt_square. lra.
Qed.

Lemma trpo_full_step_monotone_witness :
  (0 < 1 ∧ 1 < 4 ∧ 0 < Rabs 1 ∧ Rabs 1 < Rabs 4 ∧ 0 < norm [1])
  ∧ norm (trpo_full_step [1] (trpo_step_size 1 1))
      < norm (trpo_full_step [1] (trpo_step_size 1 4))
  ∧ norm (trpo_full_step [1] (trpo_step_size 4 1))
      < norm (trpo_full_step [1] (trpo_step_size 1 1)).
Proof.
  assert (H1 : Rabs 1 = 1) by (apply Rabs_pos_eq; lra).
  assert (H4 : Rabs 4 = 4) by (apply Rabs_pos_eq; lra).
  assert (Hn : norm [1] = 1) by (apply norm_singleton; lra).
  assert (Hhyp : 0 < 1 ∧ 1 < 4 ∧ 0 < Rabs 1 ∧ Rabs 1 < Rabs 4 ∧ 0 < norm [1]).
  { rewrite H1, H4, Hn. lra. }
  split; [exact Hhyp|].
  destruct Hhyp as (Ha & Hb & Hc & Hd & He).
  destruct (trpo_full_step_monotone [1] 1 4 1 4 Ha Hb Hc Hd) as (_ & _ & _ & _ & Hstrict).
  exact (Hstrict He).
Defined.

(** C7 as stated fails in KL_bound: for d = [1] and denom = 1, raising
    KL_bound from 1 to 4 takes the step size from 1 to 1/2 and the norm of
    full_step from 1 to 2. *)
Lemma trpo_full_step_KL_bound_counterexample :
  1 < 4
  ∧ trpo_step_size 1 1 = 1 ∧ trpo_step_size 1 4 = 1 / 2
  ∧ norm (trpo_full_step [1] (trpo_step_size 1 1)) = 1
  ∧ norm (trpo_full_step [1] (trpo_step_size 1 4)) = 2
  ∧ ¬ norm (trpo_full_step [1] (trpo_step_size 1 4))
        <= norm (trpo_full_step [1] (trpo_step_size 1 1)).
Proof.
  assert (H1 : Rabs 1 = 1) by (apply Rabs_pos_eq; lra).
  assert (Hs1 : trpo_step_size 1 1 = 1).
  { unfold trpo_step_size. rewrite H1. replace (1 / 1) with 1 by lra. apply sqrt_1. }
  assert (Hs4 : trpo_step_size 1 4 = 1 / 2).
  { unfold trpo_step_size. rewrite H1. apply sqrt_quarter. }
  assert (Hn1 : norm (trpo_full_step [1] (trpo_step_size 1 1)) = 1).
  { rewrite Hs1. unfold trpo_full_step, div_scalar; simpl.
    replace (1 / 1) with 1 by lra. apply norm_singleton. lra. }
  assert (Hn4 : norm (trpo_full_step [1] (trpo_step_size 1 4)) = 2).
  { rewrite Hs4. unfold trpo_full_step, div_scalar; simpl.
    replace (1 / (1 / 2)) with 2 by lra. apply norm_singleton. lra. }
  split; [lra|]. split; [done|]. split; [done|]. split; [done|]. split; [done|].
  rewrite Hn1, Hn4. lra.
Qed.

(** ** The update *)

Lemma bls_loop_failure (f : bool → Policy → R) m initial_loss x p c attempts :
  ∀ alpha model,
    (bls_loop f m initial_loss x p c attempts alpha model).2.1 = false →
    (bls_loop f m initial_loss x p c attempts alpha model).2.2 = add x p.
Proof.
  induction attempts as [|attempts IH]; intros alpha model; [done|].
  destruct (decide (accepted f model m initial_loss x p c alpha)) as [Hacc|Hrej].
  - by rewrite (bls_loop_accept _ _ _ _ _ _ _ _ _ Hacc).
  - rewrite (bls_loop_reject _ _ _ _ _ _ _ _ _ Hrej). apply IH.
Qed.

Section OrchestratorFacts.
Context {Obs : Type}.
Variable junk : nat → nat → R.
Variable value_net : list Obs → vec.
Variable log_probs_at : vec → list Obs → list nat → vec.
Variable autograd_grad : (vec → R) → vec → vec.
Variable flat_grad_grad_kl : vec → list Obs → vec → vec.

(** The tensor that [trpo_update] normalises and feeds to the loss is the
    first component of the estimator's pair, the one it returns is the
    second. *)
Lemma trpo_update_unfold policy observations actions rewards mask gamma tau first second :
  estimate_advantage junk value_net observations rewards actions mask gamma tau
    = Some (first, second) →
  trpo_update junk value_net log_probs_at autograd_grad flat_grad_grad_kl
      policy observations actions rewards mask gamma tau
    = Some (let search := trpo_line_search log_probs_at autograd_grad flat_grad_grad_kl
                            policy observations actions (normalize first) in
            (set_flat_params_to search.1 search.2.2, second)).
Proof.
  intros E. unfold trpo_update. rewrite E; simpl.
  by destruct (trpo_line_search _ _ _ _ _ _ _) as [policy' [success new_params]].
Qed.

Lemma trpo_line_search_failure policy obs_t actions_t weights :
  let search := trpo_line_search log_probs_at autograd_grad flat_grad_grad_kl
                  policy obs_t actions_t weights in
  search.2.1 = false →
  search.2.2 = add (get_model_params policy)
                 (trpo_step log_probs_at autograd_grad flat_grad_grad_kl
                    policy obs_t actions_t weights).
Proof. apply bls_loop_failure. Qed.

Lemma trpo_line_search_moves policy obs_t actions_t weights :
  let full_step := trpo_step log_probs_at autograd_grad flat_grad_grad_kl
                     policy obs_t actions_t weights in
  add (get_model_params policy) full_step ≠ get_model_params policy →
  (trpo_line_search log_probs_at autograd_grad flat_grad_grad_kl
     policy obs_t actions_t weights).2.2 ≠ get_model_params policy.
Proof.
  intros full_step Hmove. unfold trpo_line_search, backtrack_line_search.
  by apply (bls_loop_moves _ _ _ _ _ _ policy).
Qed.

End OrchestratorFacts.

(** C5. On every well-shaped trajectory [trpo_update] returns, and the policy
    it leaves holds the parameters the line search returned, whether the search
    succeeded or not; after a failed search these are the old parameters plus
    the full step; and when the full step has a nonzero component the
    parameters of the policy have changed. *)
Theorem trpo_update_always_commits {Obs} junk (value_net : list Obs → vec)
    log_probs_at autograd_grad flat_grad_grad_kl
    policy observations actions rewards mask gamma tau :
  length (value_net observations) = length rewards →
  length actions = length rewards →
  length mask = length rewards →
  ∃ first second policy',
    estimate_advantage junk value_net observations rewards actions mask gamma tau
      = Some (first, second)
    ∧ trpo_update junk value_net log_probs_at autograd_grad flat_grad_grad_kl
          policy observations actions rewards mask gamma tau
        = Some (policy', second)
    ∧ let search := trpo_line_search log_probs_at autograd_grad flat_grad_grad_kl
                      policy observations actions (normalize first) in
      let full_step := trpo_step log_probs_at autograd_grad flat_grad_grad_kl
                         policy observations actions (normalize first) in
      let old_params := get_model_params policy in
      get_model_params policy' = search.2.2
      ∧ (search.2.1 = false → get_model_params policy' = add old_params full_step)
      ∧ ((∃ i a, (i < length old_params)%nat ∧ full_step !! i = Some a ∧ a ≠ 0) →
         get_model_params policy' ≠ old_params).
Proof.
  intros Hv Ha Hm.
  pose proof (estimate_advantage_closed_form junk value_net observations rewards
                actions mask gamma tau Hv Ha Hm) as E.
  eexists _, _, _. split; [exact E|].
  split; [by apply trpo_update_unfold|].
  simpl. split; [done|]. split.
  - apply trpo_line_search_failure.
  - intros (i & a & Hi & Hstep & Hnz).
    apply trpo_line_search_moves. by apply (add_moves _ _ i a).
Qed.

(** A run with one parameter: the gradient of the surrogate is
    [- 1 / 10 ^ 11], the curvature is the identity; the residual is below the
    threshold at the first iteration, which moves [x] and leaves the loop. *)
Lemma small_gradient_direction (w : vec) :
  let policy := {| params := [0]; KL_bound := 1/1000; backtrack_coeff := 8/10 |} in
  trpo_direction (Obs := unit) (λ _ _ _, [0; 0]) (λ _ _, [- / 10 ^ 11]) (λ _ _ v, v)
    policy [(); ()] [0%nat; 0%nat] w = [/ (101 * 10 ^ 9)].
Proof.
  intros policy.
  unfold trpo_direction, trpo_g_vect, conjugate_gradient, Hv.
  cbn [neg fmap list_fmap zeros_like scale add sub zip_with].
  replace (- - / 10 ^ 11 - (0 + damping * 0)) with (/ 10 ^ 11) by (unfold damping; lra).
  change 10%nat with (S 9).
  rewrite cg_loop_unfold, decide_True.
  - unfold cg_x, cg_update, dot, sum, add, scale, damping; simpl.
    f_equal. field.
  - rewrite norm_singleton by lra. unfold threshold. lra.
Qed.

Lemma trpo_update_always_commits_witness :
  let value_net := λ _ : list unit, [0; 0] in
  let log_probs_at := λ (_ : vec) (_ : list unit) (_ : list nat), [0; 0] in
  let autograd_grad := λ (_ : vec → R) (_ : vec), [- / 10 ^ 11] in
  let flat_grad_grad_kl := λ (_ : vec) (_ : list unit) (v : vec), v in
  let policy := {| params := [0]; KL_bound := 1/1000; backtrack_coeff := 8/10 |} in
  let observations := [(); ()] in
  let actions := [0%nat; 0%nat] in
  let rewards := [1; 0] in
  let mask := [1; 1] in
  (length (value_net observations) = length rewards
   ∧ length actions = length rewards ∧ length mask = length rewards)
  ∧ (∀ w, ∃ i a, (i < length (get_model_params policy))%nat
       ∧ trpo_step log_probs_at autograd_grad flat_grad_grad_kl
           policy observations actions w !! i = Some a
       ∧ a ≠ 0)
  ∧ ∃ policy' second,
      trpo_update (λ _ _, 0) value_net log_probs_at autograd_grad flat_grad_grad_kl
          policy observations actions rewards mask (1/2) (1/2)
        = Some (policy', second)
      ∧ get_model_params policy' ≠ get_model_params policy.
Proof.
  intros value_net log_probs_at autograd_grad flat_grad_grad_kl policy
    observations actions rewards mask.
  assert (Hstep : ∀ w, ∃ i a, (i < length (get_model_params policy))%nat
       ∧ trpo_step log_probs_at autograd_grad flat_grad_grad_kl
           policy observations actions w !! i = Some a
       ∧ a ≠ 0).
  { intros w. exists 0%nat. unfold trpo_step.
    rewrite (small_gradient_direction w
             : trpo_direction log_probs_at autograd_grad flat_grad_grad_kl
                 policy observations actions w = [/ (101 * 10 ^ 9)]).
    eexists. split; [simpl; lia|]. split; [reflexivity|].
    assert (Hss : 0 < trpo_step_size
                    (trpo_denom [/ (101 * 10 ^ 9)]
                       (trpo_g_vect log_probs_at autograd_grad policy observations actions w))
                    (KL_bound policy)).
    { apply trpo_step_size_pos; [simpl; lra|].
      unfold trpo_denom, trpo_g_vect, autograd_grad, dot, sum, neg; simpl. lra. }
    apply Rgt_not_eq, Rdiv_lt_0_compat; [lra|exact Hss]. }
  split; [done|]. split; [exact Hstep|].
  destruct (trpo_update_always_commits (λ _ _, 0) value_net log_probs_at autograd_grad
              flat_grad_grad_kl policy observations actions rewards mask (1/2) (1/2))
    as (first & second & policy' & _ & Hupd & _ & _ & Hmoves); [done|done|done|].
  exists policy', second. split; [exact Hupd|].
  apply Hmoves, Hstep.
Defined.

(** C1, on a run. The estimator returns (returns, advantages) =
    ([3/2; 1], [1/4; 1]) for the two-step trajectory below; [trpo_update] binds
    the pair as (advantages, returns): the tensor it normalises and feeds to
    the surrogate loss is [3/2; 1], the estimator's returns, and the tensor it
    returns is [1/4; 1], the estimator's advantages. *)
Theorem trpo_update_swaps_estimator_pair junk
    (log_probs_at : vec → list unit → list nat → vec)
    (autograd_grad : (vec → R) → vec → vec)
    (flat_grad_grad_kl : vec → list unit → vec → vec)
    (policy : Policy) :
  let value_net := λ _ : list unit, [1; 0] in
  let observations := [(); ()] in
  let actions := [0%nat; 0%nat] in
  let rewards := [1; 1] in
  let mask := [1; 1] in
  estimate_advantage junk value_net observations rewards actions mask (1/2) (1/2)
    = Some ([3/2; 1], [1/4; 1])
  ∧ trpo_update junk value_net log_probs_at autograd_grad flat_grad_grad_kl
        policy observations actions rewards mask (1/2) (1/2)
      = Some (let search := trpo_line_search log_probs_at autograd_grad flat_grad_grad_kl
                              policy observations actions (normalize [3/2; 1]) in
              (set_flat_params_to search.1 search.2.2, [1/4; 1])).
Proof.
  intros value_net observations actions rewards mask.
  assert (E : estimate_advantage junk value_net observations rewards actions mask
                (1/2) (1/2) = Some ([3/2; 1], [1/4; 1])).
  { rewrite estimate_advantage_closed_form by done. simpl.
    do 2 f_equal; repeat (f_equal; try lra). }
  split; [exact E|]. by apply trpo_update_unfold.
Qed.

Lemma sum_replicate (c : R) (n : nat) : sum (replicate n c) = INR n * c.
Proof.
  unfold sum. induction n as [|n IH]; [simpl; lra|].
  rewrite S_INR. simpl. rewrite IH. lra.
Qed.

Lemma mean_replicate (c : R) (n : nat) : (0 < n)%nat → mean (replicate n c) = c.
Proof.
  intros Hn. unfold mean. rewrite sum_replicate, length_replicate.
  field. apply not_0_INR. lia.
Qed.

Lemma sum_deviations_replicate (c : R) (n : nat) :
  sum ((λ x, (x - mean (replicate n c)) * (x - mean (replicate n c))) <$> replicate n c) = 0.
Proof.
  destruct n as [|n]; [done|].
  rewrite mean_replicate by lia.
  rewrite fmap_replicate, sum_replicate. lra.
Qed.


(** For one sample the squared deviations sum to 0 and Bessel's divisor
    n - 1 is 0 as well: the standard deviation is the square root of 0 / 0. *)
Lemma std_one_sample (w : R) :
  sum ((λ x, (x - mean [w]) * (x - mean [w])) <$> [w]) = 0
  ∧ INR (length [w]) - 1 = 0.
Proof.
  split; [apply (sum_deviations_replicate w 1)|simpl; lra].
Qed.





(** * Further properties of the code *)

(** ** The estimator on trajectories of any shape *)

Lemma for_each_ext {S : Type} (body1 body2 : S → nat → option S) (idx : list nat) :
  (∀ s i, i ∈ idx → body1 s i = body2 s i) →
  ∀ s, for_each body1 idx s = for_each body2 idx s.
Proof.
  induction idx as [|i idx IH]; intros Hext s; [done|]. simpl.
  rewrite (Hext s i) by (by left).
  destruct (body2 s i) as [s'|]; simpl; [|done].
  apply IH. intros s0 j Hj. apply Hext. by right.
Qed.

(** The body reads the value estimates and the masks at [i] only. *)
Lemma gae_body_take values rewards masks gamma tau T s i :
  (i < T)%nat →
  gae_body values rewards masks gamma tau s i
    = gae_body (take T values) rewards (take T masks) gamma tau s i.
Proof.
  intros Hi. unfold gae_body. by rewrite !lookup_take, !decide_True by done.
Qed.

Lemma store_length (t t' : vec) i x : store t i x = Some t' → length t' = length t.
Proof.
  unfold store. destruct (decide (i < length t)%nat); [|done].
  intros [= <-]. apply length_insert.
Qed.

Lemma store_app (t more : vec) i x :
  (i < length t)%nat → store (t ++ more) i x = (λ t', t' ++ more) <$> store t i x.
Proof.
  intros Hi. unfold store.
  rewrite !decide_True by (rewrite ?length_app; lia).
  simpl. by rewrite insert_app_l.
Qed.

Lemma gae_body_length values rewards masks gamma tau s i s' :
  gae_body values rewards masks gamma tau s i = Some s' →
  length (returns s') = length (returns s)
  ∧ length (deltas s') = length (deltas s)
  ∧ length (advantages s') = length (advantages s).
Proof.
  unfold gae_body. intros H.
  destruct (rewards !! i) as [r|]; [|done].
  destruct (masks !! i) as [m|]; [|done]. simpl in H.
  destruct (store (returns s) i _) as [returns'|] eqn:Er; [|done].
  destruct (values !! i) as [v|]; [|done]. simpl in H.
  destruct (store (deltas s) i _) as [deltas'|] eqn:Ed; [|done]. simpl in H.
  destruct (deltas' !! i) as [d|]; [|done]. simpl in H.
  destruct (store (advantages s) i _) as [advantages'|] eqn:Ea; [|done]. simpl in H.
  destruct (returns' !! i) as [pr|]; [|done].
  destruct (advantages' !! i) as [pa|]; [|done].
  injection H as <-. simpl.
  repeat split; eapply store_length; eassumption.
Qed.

(** Rows behind index [i] do not take part in the pass at [i]. *)
Lemma gae_body_extend values rewards masks gamma tau mr md ma s i :
  (i < length (returns s))%nat → (i < length (deltas s))%nat →
  (i < length (advantages s))%nat →
  gae_body values rewards masks gamma tau (gae_extend mr md ma s) i
    = gae_extend mr md ma <$> gae_body values rewards masks gamma tau s i.
Proof.
  intros Hr Hd Ha. unfold gae_body.
  destruct (rewards !! i) as [r|]; [|done].
  destruct (masks !! i) as [m|]; [|done].
  destruct (values !! i) as [v|]; simpl.
  - repeat (first [ rewrite store_in_range by (rewrite ?length_app; lia)
                  | rewrite list_lookup_insert_eq by (rewrite ?length_app; lia) ]; simpl).
    unfold gae_extend; simpl. by rewrite !insert_app_l by done.
  - rewrite !store_in_range by (rewrite ?length_app; lia). done.
Qed.

Lemma for_each_gae_extend values rewards masks gamma tau mr md ma L idx : ∀ s,
  Forall (λ i, (i < L)%nat) idx →
  length (returns s) = L → length (deltas s) = L → length (advantages s) = L →
  for_each (gae_body values rewards masks gamma tau) idx (gae_extend mr md ma s)
    = gae_extend mr md ma <$> for_each (gae_body values rewards masks gamma tau) idx s.
Proof.
  induction idx as [|i idx IH]; intros s Hidx Hr Hd Ha; [done|].
  inversion_clear Hidx as [|? ? Hi Hrest]. simpl.
  rewrite gae_body_extend by lia.
  destruct (gae_body values rewards masks gamma tau s i) as [s'|] eqn:E; [|done].
  simpl. destruct (gae_body_length _ _ _ _ _ _ _ _ E) as (Hr' & Hd' & Ha').
  apply IH; [exact Hrest|lia|lia|lia].
Qed.

Lemma uninitialized_split junk T n :
  (T ≤ n)%nat →
  uninitialized junk n = uninitialized junk T ++ drop T (uninitialized junk n).
Proof.
  intros HT. rewrite <- (take_drop T (uninitialized junk n)) at 1. f_equal.
  unfold uninitialized. rewrite <- fmap_take, take_seq. by rewrite Nat.min_l.
Qed.

Lemma reverse_seq_lt T : Forall (λ i, (i < T)%nat) (reverse (seq 0 T)).
Proof.
  apply Forall_forall. intros i Hi.
  apply list_elem_of_In, elem_of_reverse, elem_of_seq in Hi. lia.
Qed.

(** The loop writes the rows below [len(rewards)] and no other. *)
Lemma estimate_advantage_prefix {Obs} junk (value_net : list Obs → vec)
    states rewards actions masks gamma tau :
  let T := length rewards in
  (T ≤ length actions)%nat → (T ≤ length (value_net states))%nat →
  (T ≤ length masks)%nat →
  estimate_advantage junk value_net states rewards actions masks gamma tau =
    Some (gae_returns gamma rewards (take T masks)
            ++ drop T (uninitialized (junk 0%nat) (length actions)),
          gae_advantages gamma tau (take T (value_net states)) rewards (take T masks)
            ++ drop T (uninitialized (junk 2%nat) (length actions))).
Proof.
  intros T Ha Hv Hm. unfold estimate_advantage.
  set (tail_r := drop T (uninitialized (junk 0%nat) (length actions))).
  set (tail_d := drop T (uninitialized (junk 1%nat) (length actions))).
  set (tail_a := drop T (uninitialized (junk 2%nat) (length actions))).
  rewrite (for_each_ext _ (gae_body (take T (value_net states)) rewards (take T masks)
                             gamma tau)).
  2:{ intros s i Hi. apply gae_body_take.
      apply elem_of_reverse, elem_of_seq in Hi. fold T in Hi. lia. }
  rewrite (uninitialized_split (junk 0%nat) T (length actions)) by done.
  rewrite (uninitialized_split (junk 1%nat) T (length actions)) by done.
  rewrite (uninitialized_split (junk 2%nat) T (length actions)) by done.
  fold tail_r tail_d tail_a.
  change ({| returns := uninitialized (junk 0%nat) T ++ tail_r;
             deltas := uninitialized (junk 1%nat) T ++ tail_d;
             advantages := uninitialized (junk 2%nat) T ++ tail_a;
             prev_return := 0; prev_value := 0; prev_advantage := 0 |})
    with (gae_extend tail_r tail_d tail_a
            {| returns := uninitialized (junk 0%nat) T;
               deltas := uninitialized (junk 1%nat) T;
               advantages := uninitialized (junk 2%nat) T;
               prev_return := 0; prev_value := 0; prev_advantage := 0 |}).
  rewrite (for_each_gae_extend _ _ _ _ _ _ _ _ T)
    by (simpl; rewrite ?length_uninitialized; first [apply reverse_seq_lt | done]).
  destruct (gae_loop_inv (take T (value_net states)) rewards (take T masks) gamma tau T)
    with (k := T) (s := {| returns := uninitialized (junk 0%nat) T;
               deltas := uninitialized (junk 1%nat) T;
               advantages := uninitialized (junk 2%nat) T;
               prev_return := 0; prev_value := 0; prev_advantage := 0 |})
    as (s' & E & Hinv);
    [by apply length_take_le|done|by apply length_take_le|lia| |].
  { apply gae_inv_start; [by apply length_take_le|done|by apply length_take_le]. }
  fold T. rewrite E. simpl.
  destruct Hinv as (_ & _ & _ & Hr & Hadv & _).
  rewrite !drop_0 in Hr, Hadv. by rewrite Hr, Hadv.
Qed.

Lemma uninitialized_tail (content : nat → R) T n i :
  (T ≤ i < n)%nat → drop T (uninitialized content n) !! (i - T)%nat = Some (content i).
Proof.
  intros Hi. rewrite lookup_drop. unfold uninitialized.
  rewrite list_lookup_fmap, lookup_seq_lt by lia. simpl. do 2 f_equal. lia.
Qed.

(** X1. When the value estimates, the masks and the actions are at least as
    long as the rewards, the estimator returns two tensors with as many rows as
    there are actions: the rows below len(rewards) hold the recurrence run on
    the first len(rewards) value estimates and masks, the rows from
    len(rewards) on are still the uninitialised memory of their own
    [torch.Tensor] allocation. *)
Theorem estimate_advantage_writes_prefix {Obs} junk (value_net : list Obs → vec)
    states rewards actions masks gamma tau :
  let T := length rewards in
  let n := length actions in
  (T ≤ n)%nat → (T ≤ length (value_net states))%nat → (T ≤ length masks)%nat →
  ∃ rets advs,
    estimate_advantage junk value_net states rewards actions masks gamma tau
      = Some (rets, advs)
    ∧ length rets = n ∧ length advs = n
    ∧ take T rets = gae_returns gamma rewards (take T masks)
    ∧ take T advs
        = gae_advantages gamma tau (take T (value_net states)) rewards (take T masks)
    ∧ ∀ i, (T ≤ i < n)%nat →
        rets !! i = Some (junk 0%nat i) ∧ advs !! i = Some (junk 2%nat i).
Proof.
  intros T n Ha Hv Hm.
  assert (Hlr : length (gae_returns gamma rewards (take T masks)) = T).
  { rewrite gae_returns_length; [done|]. by rewrite length_take_le. }
  assert (Hla : length (gae_advantages gamma tau (take T (value_net states)) rewards
                          (take T masks)) = T).
  { rewrite gae_advantages_length; [done| |]; by rewrite length_take_le. }
  assert (Htail : ∀ content, length (drop T (uninitialized content n)) = (n - T)%nat).
  { intros content. by rewrite length_drop, length_uninitialized. }
  eexists _, _. split; [by apply estimate_advantage_prefix|].
  fold T n. split; [rewrite length_app, Htail; lia|].
  split; [rewrite length_app, Htail; lia|].
  split; [by rewrite <- Hlr at 1; rewrite take_app_length|].
  split; [by rewrite <- Hla at 1; rewrite take_app_length|].
  intros i Hi.
  rewrite !lookup_app_r by lia. rewrite Hlr, Hla. split; by apply uninitialized_tail.
Qed.

Lemma estimate_advantage_writes_prefix_witness :
  let value_net := λ _ : list unit, [0; 0; 7] in
  let junk := λ k i : nat, INR k * 100 + INR i + 40 in
  ((length [1; 1] ≤ length [0%nat; 0%nat; 0%nat])%nat
   ∧ (length [1; 1] ≤ length (value_net [(); (); ()]))%nat
   ∧ (length [1; 1] ≤ length [1; 1; 1])%nat)
  ∧ ∃ rets advs,
      estimate_advantage junk value_net [(); (); ()] [1; 1] [0%nat; 0%nat; 0%nat]
          [1; 1; 1] (1/2) 1 = Some (rets, advs)
      ∧ length rets = 3%nat
      ∧ rets !! 2%nat = Some (junk 0%nat 2%nat)
      ∧ advs !! 2%nat = Some (junk 2%nat 2%nat).
Proof.
  intros value_net junk.
  split; [simpl; lia|].
  destruct (estimate_advantage_writes_prefix junk value_net [(); (); ()] [1; 1]
              [0%nat; 0%nat; 0%nat] [1; 1; 1] (1/2) 1)
    as (rets & advs & E & Hl & _ & _ & _ & Hjunk); [simpl; lia..|].
  exists rets, advs. split; [exact E|]. split; [exact Hl|].
  apply Hjunk. simpl. lia.
Defined.

Lemma store_out_of_range (t : vec) i x : (length t ≤ i)%nat → store t i x = None.
Proof. intros Hi. unfold store. rewrite decide_False; [done|lia]. Qed.

(** A pass at an index that is out of range for the masks, the value
    estimates or the [returns] buffer raises. *)
Lemma gae_body_out_of_range values rewards masks gamma tau s i :
  (length (returns s) ≤ i ∨ length values ≤ i ∨ length masks ≤ i)%nat →
  gae_body values rewards masks gamma tau s i = None.
Proof.
  intros Hshort. unfold gae_body.
  destruct (rewards !! i) as [r|]; [|done].
  destruct (masks !! i) as [m|] eqn:Em; [|done]. simpl.
  apply lookup_lt_Some in Em.
  destruct (decide (i < length (returns s))%nat) as [Hret|Hret].
  - rewrite (store_in_range (returns s)) by done. simpl.
    destruct (values !! i) as [v|] eqn:Ev; [|done].
    apply lookup_lt_Some in Ev. lia.
  - rewrite (store_out_of_range (returns s)) by lia. done.
Qed.

(** The first pass of the loop, at the last reward, already indexes out of
    range when a collaborating tensor is too short. *)
Lemma estimate_advantage_index_error {Obs} junk (value_net : list Obs → vec)
    states rewards actions masks gamma tau :
  (length actions < length rewards ∨ length (value_net states) < length rewards
   ∨ length masks < length rewards)%nat →
  estimate_advantage junk value_net states rewards actions masks gamma tau = None.
Proof.
  intros Hshort. unfold estimate_advantage.
  destruct (length rewards) as [|T'] eqn:ET; [lia|].
  rewrite seq_S, reverse_snoc; simpl.
  rewrite gae_body_out_of_range; [done|].
  simpl. rewrite length_uninitialized. lia.
Qed.

(** X2. The estimator raises (IndexError) exactly when the actions, the value
    estimates or the masks are fewer than the rewards; in particular it
    returns on an empty trajectory. *)
Theorem estimate_advantage_raises_iff {Obs} junk (value_net : list Obs → vec)
    states rewards actions masks gamma tau :
  estimate_advantage junk value_net states rewards actions masks gamma tau = None
  ↔ (length actions < length rewards ∨ length (value_net states) < length rewards
     ∨ length masks < length rewards)%nat.
Proof.
  split; [|apply estimate_advantage_index_error].
  intros Hnone.
  destruct (decide (length rewards ≤ length actions
                    ∧ length rewards ≤ length (value_net states)
                    ∧ length rewards ≤ length masks)%nat) as [(Ha & Hv & Hm)|Hshort];
    [|lia].
  rewrite estimate_advantage_prefix in Hnone by done. done.
Qed.

(** ** What the estimator computes *)

Lemma gae_returns_gamma_0 rewards : ∀ masks,
  length masks = length rewards → gae_returns 0 rewards masks = rewards.
Proof.
  induction rewards as [|r rs IH]; intros [|m ms] Hlen; simpl in *; try done.
  f_equal; [lra|]. apply IH. lia.
Qed.

Lemma gae_advantages_gamma_0 tau values : ∀ rewards masks,
  length values = length rewards → length masks = length rewards →
  gae_advantages 0 tau values rewards masks = sub rewards values.
Proof.
  induction values as [|v vs IH]; intros [|r rs] [|m ms] Hv Hm; simpl in *; try done.
  f_equal; [lra|]. apply IH; lia.
Qed.

(** X3. Without discounting (gamma = 0) nothing is carried from one step to
    the previous one: the returns are the rewards and the advantages are the
    rewards minus the value estimates, whatever the masks and tau are. *)
Theorem estimate_advantage_gamma_0 {Obs} junk (value_net : list Obs → vec)
    states rewards actions masks tau :
  length (value_net states) = length rewards →
  length actions = length rewards →
  length masks = length rewards →
  estimate_advantage junk value_net states rewards actions masks 0 tau
    = Some (rewards, sub rewards (value_net states)).
Proof.
  intros Hv Ha Hm.
  rewrite estimate_advantage_closed_form by done.
  by rewrite gae_returns_gamma_0, gae_advantages_gamma_0.
Qed.

Lemma estimate_advantage_gamma_0_witness :
  let value_net := λ _ : list unit, [1/2; 2] in
  (length (value_net [(); ()]) = length [3; 4]
   ∧ length [0%nat; 1%nat] = length [3; 4] ∧ length [1; 0] = length [3; 4])
  ∧ estimate_advantage (λ _ _, 0) value_net [(); ()] [3; 4] [0%nat; 1%nat] [1; 0] 0 (1/2)
      = Some ([3; 4], sub [3; 4] (value_net [(); ()])).
Proof.
  intros value_net. split; [done|].
  by apply (estimate_advantage_gamma_0 (λ _ _, 0) value_net [(); ()] [3; 4]
              [0%nat; 1%nat] [1; 0] (1/2)).
Defined.

Lemma gae_returns_cons gamma r rs m ms :
  gae_returns gamma (r :: rs) (m :: ms)
    = (r + gamma * hd 0 (gae_returns gamma rs ms) * m) :: gae_returns gamma rs ms.
Proof. done. Qed.

Lemma gae_advantages_cons gamma tau v vs r rs m ms :
  gae_advantages gamma tau (v :: vs) (r :: rs) (m :: ms)
    = (r + gamma * hd 0 vs * m - v
       + gamma * tau * hd 0 (gae_advantages gamma tau vs rs ms) * m)
      :: gae_advantages gamma tau vs rs ms.
Proof. done. Qed.

Lemma gae_returns_split gamma rewards1 : ∀ masks1 rewards2 masks2,
  length masks1 = length rewards1 → list.last masks1 = Some 0 →
  gae_returns gamma (rewards1 ++ rewards2) (masks1 ++ masks2)
    = gae_returns gamma rewards1 masks1 ++ gae_returns gamma rewards2 masks2.
Proof.
  induction rewards1 as [|r rs IH]; intros [|m ms] rewards2 masks2 Hlen Hlast;
    simpl in Hlen; try done.
  cbn [app]. rewrite !gae_returns_cons.
  destruct rs as [|r' rs'], ms as [|m' ms']; simpl in Hlen; try done.
  - injection Hlast as ->. simpl. f_equal. lra.
  - rewrite (IH (m' :: ms') rewards2 masks2) by (first [simpl; lia | done]).
    by rewrite (gae_returns_cons gamma r' rs' m' ms').
Qed.

Lemma gae_advantages_split gamma tau values1 : ∀ rewards1 masks1 values2 rewards2 masks2,
  length rewards1 = length values1 → length masks1 = length values1 →
  list.last masks1 = Some 0 →
  gae_advantages gamma tau (values1 ++ values2) (rewards1 ++ rewards2) (masks1 ++ masks2)
    = gae_advantages gamma tau values1 rewards1 masks1
      ++ gae_advantages gamma tau values2 rewards2 masks2.
Proof.
  induction values1 as [|v vs IH];
    intros [|r rs] [|m ms] values2 rewards2 masks2 Hr Hm Hlast;
    simpl in Hr, Hm; try done.
  cbn [app]. rewrite !gae_advantages_cons.
  destruct vs as [|v' vs'], rs as [|r' rs'], ms as [|m' ms']; simpl in Hr, Hm; try done.
  - injection Hlast as ->. simpl. f_equal. lra.
  - rewrite (IH (r' :: rs') (m' :: ms') values2 rewards2 masks2)
      by (first [simpl; lia | done]).
    by rewrite (gae_advantages_cons gamma tau v' vs' r' rs' m' ms').
Qed.

(** X4. A mask of 0 cuts the trajectory: when the last mask of a first part is
    0 (and the value network treats the two parts independently), the
    estimator's outputs on the whole trajectory are its outputs on the first
    part followed by its outputs on the second part; nothing of the second part
    reaches the first. *)
Theorem estimate_advantage_episode_boundary {Obs} junk (value_net : list Obs → vec)
    states1 states2 rewards1 rewards2 actions1 actions2 masks1 masks2 gamma tau :
  value_net (states1 ++ states2) = value_net states1 ++ value_net states2 →
  length (value_net states1) = length rewards1 →
  length actions1 = length rewards1 → length masks1 = length rewards1 →
  length (value_net states2) = length rewards2 →
  length actions2 = length rewards2 → length masks2 = length rewards2 →
  list.last masks1 = Some 0 →
  ∃ rets1 advs1 rets2 advs2,
    estimate_advantage junk value_net states1 rewards1 actions1 masks1 gamma tau
      = Some (rets1, advs1)
    ∧ estimate_advantage junk value_net states2 rewards2 actions2 masks2 gamma tau
      = Some (rets2, advs2)
    ∧ estimate_advantage junk value_net (states1 ++ states2) (rewards1 ++ rewards2)
        (actions1 ++ actions2) (masks1 ++ masks2) gamma tau
      = Some (rets1 ++ rets2, advs1 ++ advs2).
Proof.
  intros Hnet Hv1 Ha1 Hm1 Hv2 Ha2 Hm2 Hlast.
  eexists _, _, _, _.
  split; [by apply estimate_advantage_closed_form|].
  split; [by apply estimate_advantage_closed_form|].
  rewrite estimate_advantage_closed_form
    by (rewrite ?Hnet, !length_app; congruence).
  rewrite Hnet, gae_returns_split, gae_advantages_split by congruence.
  done.
Qed.

Lemma estimate_advantage_episode_boundary_witness :
  let value_net := λ states : list R, states in
  (value_net ([1] ++ [2]) = value_net [1] ++ value_net [2]
   ∧ length (value_net [1]) = length [5] ∧ length [0%nat] = length [5]
   ∧ length [0] = length [5]
   ∧ length (value_net [2]) = length [7] ∧ length [1%nat] = length [7]
   ∧ length [1] = length [7]
   ∧ list.last [0] = Some 0)
  ∧ ∃ rets1 advs1 rets2 advs2,
      estimate_advantage (λ _ _, 0) value_net [1] [5] [0%nat] [0] (1/2) (1/2)
        = Some (rets1, advs1)
      ∧ estimate_advantage (λ _ _, 0) value_net [2] [7] [1%nat] [1] (1/2) (1/2)
        = Some (rets2, advs2)
      ∧ estimate_advantage (λ _ _, 0) value_net ([1] ++ [2]) ([5] ++ [7])
          ([0%nat] ++ [1%nat]) ([0] ++ [1]) (1/2) (1/2)
        = Some (rets1 ++ rets2, advs1 ++ advs2).
Proof.
  intros value_net. split; [by repeat split|].
  by apply (estimate_advantage_episode_boundary (λ _ _, 0) value_net
              [1] [2] [5] [7] [0%nat] [1%nat] [0] [1] (1/2) (1/2)).
Defined.

Lemma gae_returns_discounted gamma rewards : ∀ masks,
  length masks = length rewards → all_one masks →
  hd 0 (gae_returns gamma rewards masks) = discounted_sum gamma rewards
  ∧ ∀ i, (i < length rewards)%nat →
      gae_returns gamma rewards masks !! i = Some (discounted_sum gamma (drop i rewards)).
Proof.
  induction rewards as [|r rs IH]; intros [|m ms] Hlen Hone; simpl in Hlen; try done.
  - split; [done|]. simpl. lia.
  - inversion_clear Hone as [|? ? Hm Hms]. subst m.
    destruct (IH ms) as [Hhd Hnth]; [lia|done|].
    rewrite gae_returns_cons, Hhd.
    assert (Hfirst : r + gamma * discounted_sum gamma rs * 1
                     = discounted_sum gamma (r :: rs)) by (simpl; lra).
    split; [exact Hfirst|].
    intros [|i] Hi; simpl in *; [by rewrite Hfirst|].
    apply Hnth. lia.
Qed.

(** X5. On a trajectory without episode boundary (all masks 1) the return of
    step i is the discounted sum of the rewards from step i on:
    reward[i] + gamma (reward[i+1] + gamma (reward[i+2] + ...)). *)
Theorem estimate_advantage_discounted_returns {Obs} junk (value_net : list Obs → vec)
    states rewards actions masks gamma tau :
  length (value_net states) = length rewards →
  length actions = length rewards →
  length masks = length rewards →
  all_one masks →
  ∃ rets advs,
    estimate_advantage junk value_net states rewards actions masks gamma tau
      = Some (rets, advs)
    ∧ ∀ i, (i < length rewards)%nat →
        rets !! i = Some (discounted_sum gamma (drop i rewards)).
Proof.
  intros Hv Ha Hm Hone.
  eexists _, _. split; [by apply estimate_advantage_closed_form|].
  by apply gae_returns_discounted.
Qed.

Lemma estimate_advantage_discounted_returns_witness :
  let value_net := λ _ : list unit, [0; 0; 0] in
  (length (value_net [(); (); ()]) = length [1; 2; 4]
   ∧ length [0%nat; 0%nat; 0%nat] = length [1; 2; 4]
   ∧ length [1; 1; 1] = length [1; 2; 4]
   ∧ all_one [1; 1; 1])
  ∧ ∃ rets advs,
      estimate_advantage (λ _ _, 0) value_net [(); (); ()] [1; 2; 4]
          [0%nat; 0%nat; 0%nat] [1; 1; 1] (1/2) (1/2) = Some (rets, advs)
      ∧ rets !! 0%nat = Some (discounted_sum (1/2) [1; 2; 4])
      ∧ discounted_sum (1/2) [1; 2; 4] = 3.
Proof.
  intros value_net.
  assert (Hone : all_one [1; 1; 1]) by (repeat constructor).
  split; [split; [done|split; [done|split; [done|exact Hone]]]|].
  destruct (estimate_advantage_discounted_returns (λ _ _, 0) value_net [(); (); ()]
              [1; 2; 4] [0%nat; 0%nat; 0%nat] [1; 1; 1] (1/2) (1/2))
    as (rets & advs & E & Hsum); [done..|].
  exists rets, advs. split; [exact E|]. split.
  - apply (Hsum 0%nat). simpl. lia.
  - simpl. lra.
Defined.

Lemma hd_sub (u v : vec) : length u = length v → hd 0 (sub u v) = hd 0 u - hd 0 v.
Proof. destruct u, v; simpl; intros Hlen; try done. lra. Qed.

Lemma gae_advantages_tau_1 gamma values : ∀ rewards masks,
  length rewards = length values → length masks = length values →
  gae_advantages gamma 1 values rewards masks
    = sub (gae_returns gamma rewards masks) values.
Proof.
  induction values as [|v vs IH]; intros [|r rs] [|m ms] Hr Hm;
    simpl in Hr, Hm; try done.
  rewrite gae_advantages_cons, gae_returns_cons, (IH rs ms) by lia.
  rewrite hd_sub by (rewrite gae_returns_length; lia).
  unfold sub; simpl. f_equal. lra.
Qed.

(** X6. With tau = 1 the advantage of every step is its return minus its
    value estimate, whatever the masks are. *)
Theorem estimate_advantage_tau_1 {Obs} junk (value_net : list Obs → vec)
    states rewards actions masks gamma :
  length (value_net states) = length rewards →
  length actions = length rewards →
  length masks = length rewards →
  ∃ rets,
    estimate_advantage junk value_net states rewards actions masks gamma 1
      = Some (rets, sub rets (value_net states)).
Proof.
  intros Hv Ha Hm.
  exists (gae_returns gamma rewards masks).
  rewrite estimate_advantage_closed_form by done.
  by rewrite gae_advantages_tau_1 by congruence.
Qed.

Lemma estimate_advantage_tau_1_witness :
  let value_net := λ _ : list unit, [1/2; 2] in
  (length (value_net [(); ()]) = length [3; 4]
   ∧ length [0%nat; 1%nat] = length [3; 4] ∧ length [1; 0] = length [3; 4])
  ∧ ∃ rets,
      estimate_advantage (λ _ _, 0) value_net [(); ()] [3; 4] [0%nat; 1%nat] [1; 0] (1/2) 1
        = Some (rets, sub rets (value_net [(); ()])).
Proof.
  intros value_net. split; [done|].
  by apply (estimate_advantage_tau_1 (λ _ _, 0) value_net [(); ()] [3; 4]
              [0%nat; 1%nat] [1; 0] (1/2)).
Defined.

Lemma gae_returns_bounded gamma Rmax rewards : ∀ masks,
  0 <= gamma < 1 → 0 <= Rmax →
  Forall (λ r, Rabs r <= Rmax) rewards →
  Forall (λ m, 0 <= m <= 1) masks →
  Rabs (hd 0 (gae_returns gamma rewards masks)) <= Rmax / (1 - gamma)
  ∧ Forall (λ x, Rabs x <= Rmax / (1 - gamma)) (gae_returns gamma rewards masks).
Proof.
  intros masks Hg HR Hrew. revert masks.
  assert (HB : 0 <= Rmax / (1 - gamma)).
  { apply Rmult_le_pos; [done|]. left. apply Rinv_0_lt_compat. lra. }
  assert (HBeq : Rmax + gamma * (Rmax / (1 - gamma)) = Rmax / (1 - gamma))
    by (field; lra).
  induction Hrew as [|r rs Hr _ IH]; intros masks Hmask.
  - simpl. rewrite Rabs_R0. split; [done|constructor].
  - destruct Hmask as [|m ms Hm Hms].
    + simpl. rewrite Rabs_R0. split; [done|constructor].
    + destruct (IH ms Hms) as [Hhd Hall].
      rewrite gae_returns_cons.
      assert (Hnew : Rabs (r + gamma * hd 0 (gae_returns gamma rs ms) * m)
                     <= Rmax / (1 - gamma)).
      { rewrite <- HBeq.
        eapply Rle_trans; [apply Rabs_triang|].
        apply Rplus_le_compat; [done|].
        rewrite !Rabs_mult, (Rabs_pos_eq gamma), (Rabs_pos_eq m) by lra.
        pose proof (Rabs_pos (hd 0 (gae_returns gamma rs ms))) as Hpos.
        set (h := Rabs (hd 0 (gae_returns gamma rs ms))) in *.
        assert (0 <= gamma * h) by nra.
        assert (gamma * h * m <= gamma * h) by nra.
        nra. }
      split; [exact Hnew|]. by constructor.
Qed.

(** X7. For a discount 0 <= gamma < 1, masks between 0 and 1 and rewards
    bounded by Rmax in absolute value, every return is bounded by
    Rmax / (1 - gamma) in absolute value. *)
Theorem estimate_advantage_returns_bounded {Obs} junk (value_net : list Obs → vec)
    states rewards actions masks gamma tau Rmax :
  length (value_net states) = length rewards →
  length actions = length rewards →
  length masks = length rewards →
  0 <= gamma < 1 → 0 <= Rmax →
  Forall (λ r, Rabs r <= Rmax) rewards →
  Forall (λ m, 0 <= m <= 1) masks →
  ∃ rets advs,
    estimate_advantage junk value_net states rewards actions masks gamma tau
      = Some (rets, advs)
    ∧ Forall (λ x, Rabs x <= Rmax / (1 - gamma)) rets.
Proof.
  intros Hv Ha Hm Hg HR Hrew Hmask.
  eexists _, _. split; [by apply estimate_advantage_closed_form|].
  by apply gae_returns_bounded.
Qed.

Lemma estimate_advantage_returns_bounded_witness :
  let value_net := λ _ : list unit, [0; 0] in
  (length (value_net [(); ()]) = length [1; -1]
   ∧ length [0%nat; 0%nat] = length [1; -1]
   ∧ length [1; 0] = length [1; -1]
   ∧ 0 <= 1/2 < 1 ∧ 0 <= 1
   ∧ Forall (λ r, Rabs r <= 1) [1; -1]
   ∧ Forall (λ m, 0 <= m <= 1) [1; 0])
  ∧ ∃ rets advs,
      estimate_advantage (λ _ _, 0) value_net [(); ()] [1; -1] [0%nat; 0%nat] [1; 0]
          (1/2) (1/2) = Some (rets, advs)
      ∧ Forall (λ x, Rabs x <= 1 / (1 - 1/2)) rets.
Proof.
  intros value_net.
  assert (Hrew : Forall (λ r, Rabs r <= 1) [1; -1]).
  { repeat constructor; [rewrite Rabs_pos_eq|rewrite Rabs_left]; lra. }
  assert (Hmask : Forall (λ m, 0 <= m <= 1) [1; 0]) by (repeat constructor; lra).
  split; [split; [done|split; [done|split; [done|split; [lra|split; [lra|done]]]]]|].
  apply (estimate_advantage_returns_bounded (λ _ _, 0) value_net [(); ()] [1; -1]
           [0%nat; 0%nat] [1; 0] (1/2) (1/2) 1); first [done | lra].
Defined.

(** ** The conjugate-gradient solver *)

Lemma length_zeros_like (b : vec) : length (zeros_like b) = length b.
Proof. apply length_fmap. Qed.

Lemma length_add (u v : vec) : length (add u v) = (length u `min` length v)%nat.
Proof. apply length_zip_with. Qed.

Lemma length_sub (u v : vec) : length (sub u v) = (length u `min` length v)%nat.
Proof. apply length_zip_with. Qed.

Lemma length_scale (a : R) (v : vec) : length (scale a v) = length v.
Proof. apply length_fmap. Qed.

Lemma add_zeros_like_scale (a : R) (b : vec) : add (zeros_like b) (scale a b) = scale a b.
Proof.
  unfold add, zeros_like, scale. induction b as [|x b IH]; simpl; [done|].
  f_equal; [lra|apply IH].
Qed.

Lemma dot_scale_r (a : R) (u v : vec) : dot u (scale a v) = a * dot u v.
Proof.
  unfold dot, sum, scale. revert v.
  induction u as [|x u IH]; intros [|y v]; simpl; try lra.
  transitivity (x * (a * y) + a * foldr Rplus 0 (zip_with Rmult u v));
    [f_equal; apply IH|lra].
Qed.

Lemma sub_sub_add (b u v : vec) : sub (sub b u) v = sub b (add u v).
Proof.
  unfold sub, add. revert u v.
  induction b as [|x b IH]; intros [|y u] [|z v]; simpl; try done.
  f_equal; [lra|apply IH].
Qed.

Lemma cg_loop_length (Hv : vec → vec) (L : nat) :
  (∀ v, length v = L → length (Hv v) = L) →
  ∀ N x r p, length x = L → length r = L → length p = L →
    length (cg_loop Hv N x r p) = L.
Proof.
  intros HHv. induction N as [|N IH]; intros x r p Hx Hr Hp; [done|].
  simpl.
  assert (Hx' : length (add x (scale (dot r r / dot p (Hv p)) p)) = L).
  { rewrite length_add, length_scale. lia. }
  destruct (decide (norm r < threshold)); [done|].
  apply IH; [done| |].
  - rewrite length_sub, length_scale, HHv by done. lia.
  - rewrite length_add, length_sub, !length_scale, HHv by done. lia.
Qed.

(** X9. When the operator keeps the dimension of its argument, the solution
    has the dimension of the right-hand side, for every iteration cap. *)
Theorem conjugate_gradient_length (Hv : vec → vec) (b : vec) (N : nat) :
  (∀ v, length v = length b → length (Hv v) = length b) →
  length (conjugate_gradient Hv b N) = length b.
Proof.
  intros HHv. unfold conjugate_gradient.
  assert (Hr : length (sub b (Hv (zeros_like b))) = length b).
  { rewrite length_sub, HHv by apply length_zeros_like. lia. }
  apply cg_loop_length; [done|apply length_zeros_like|done|done].
Qed.

Lemma conjugate_gradient_length_witness :
  (∀ v, length v = length [1; 2; 3] → length (scale 2 v) = length [1; 2; 3])
  ∧ length (conjugate_gradient (scale 2) [1; 2; 3] 10) = length [1; 2; 3].
Proof.
  assert (HHv : ∀ v, length v = length [1; 2; 3] → length (scale 2 v) = length [1; 2; 3])
    by (intros v Hv; by rewrite length_scale).
  split; [exact HHv|].
  exact (conjugate_gradient_length (scale 2) [1; 2; 3] 10 HHv).
Defined.

(** X10. When the right-hand side is an eigenvector of the operator,
    Hv(b) = lambda b with lambda not 0, one iteration solves the system:
    the result is b / lambda. *)
Theorem conjugate_gradient_eigenvector (Hv : vec → vec) (b : vec) (lambda : R) :
  Hv (zeros_like b) = zeros_like b →
  Hv b = scale lambda b →
  lambda ≠ 0 → dot b b ≠ 0 →
  conjugate_gradient Hv b 1 = scale (/ lambda) b.
Proof.
  intros Hzero Heig Hl Hb.
  unfold conjugate_gradient. rewrite Hzero, sub_zeros_like.
  assert (Halpha : dot b b / dot b (Hv b) = / lambda).
  { rewrite Heig, dot_scale_r. field. done. }
  simpl. rewrite Halpha, add_zeros_like_scale.
  by destruct (decide (norm b < threshold)).
Qed.

Lemma conjugate_gradient_eigenvector_witness :
  (scale 4 (zeros_like [1; 2]) = zeros_like [1; 2]
   ∧ scale 4 [1; 2] = scale 4 [1; 2] ∧ 4 ≠ 0 ∧ dot [1; 2] [1; 2] ≠ 0)
  ∧ conjugate_gradient (scale 4) [1; 2] 1 = scale (/ 4) [1; 2].
Proof.
  assert (Hzero : scale 4 (zeros_like [1; 2]) = zeros_like [1; 2]).
  { unfold scale, zeros_like; simpl. repeat (f_equal; try lra). }
  assert (Hb : dot [1; 2] [1; 2] ≠ 0) by (unfold dot, sum; simpl; lra).
  assert (H4 : 4 ≠ 0) by lra.
  split; [done|].
  exact (conjugate_gradient_eigenvector (scale 4) [1; 2] 4 Hzero eq_refl H4 Hb).
Defined.

Lemma cg_loop_is_iterate (Hv : vec → vec) (N : nat) : ∀ x r p,
  ∃ k, (k ≤ N)%nat ∧ cg_loop Hv N x r p = cg_x (Nat.iter k (cg_update Hv) (x, r, p)).
Proof.
  induction N as [|N IH]; intros x r p.
  - exists 0%nat. by split.
  - rewrite cg_loop_unfold.
    destruct (decide (norm r < threshold)).
    + exists 1%nat. split; [lia|done].
    + destruct (cg_update Hv (x, r, p)) as [[x' r'] p'] eqn:E.
      destruct (IH x' r' p') as (k & Hk & Ek).
      exists (S k). split; [lia|].
      by rewrite Nat.iter_succ_r, E.
Qed.

Lemma cg_update_residual (Hv : vec → vec) (b x r p : vec) :
  (∀ u a v, Hv (add u (scale a v)) = add (Hv u) (scale a (Hv v))) →
  r = sub b (Hv x) →
  cg_r (cg_update Hv (x, r, p)) = sub b (Hv (cg_x (cg_update Hv (x, r, p)))).
Proof.
  intros Hlin ->. unfold cg_r, cg_x, cg_update; simpl.
  by rewrite Hlin, sub_sub_add.
Qed.

Lemma cg_iterate_residual (Hv : vec → vec) (b : vec) (k : nat) :
  Hv (zeros_like b) = zeros_like b →
  (∀ u a v, Hv (add u (scale a v)) = add (Hv u) (scale a (Hv v))) →
  cg_r (cg_iterate Hv b k) = sub b (Hv (cg_x (cg_iterate Hv b k))).
Proof.
  intros Hzero Hlin. unfold cg_iterate.
  induction k as [|k IH]; simpl.
  - unfold cg_r, cg_x; simpl. by rewrite Hzero, sub_zeros_like.
  - destruct (Nat.iter k (cg_update Hv) (zeros_like b, b, b)) as [[x r] p].
    by apply cg_update_residual.
Qed.

(** X11. For a linear operator the loop keeps r = b - Hv(x): the vector the
    solver returns is the x of some k <= N updates, and its true residual
    b - Hv(x) is the r of those k updates. *)
Theorem conjugate_gradient_residual (Hv : vec → vec) (b : vec) (N : nat) :
  Hv (zeros_like b) = zeros_like b →
  (∀ u a v, Hv (add u (scale a v)) = add (Hv u) (scale a (Hv v))) →
  ∃ k, (k ≤ N)%nat
    ∧ conjugate_gradient Hv b N = cg_x (cg_iterate Hv b k)
    ∧ sub b (Hv (conjugate_gradient Hv b N)) = cg_r (cg_iterate Hv b k).
Proof.
  intros Hzero Hlin.
  destruct (cg_loop_is_iterate Hv N (zeros_like b) b b) as (k & Hk & E).
  assert (Hres : conjugate_gradient Hv b N = cg_x (cg_iterate Hv b k)).
  { unfold conjugate_gradient. by rewrite Hzero, sub_zeros_like. }
  exists k. split; [done|]. split; [done|].
  rewrite Hres. symmetry. by apply cg_iterate_residual.
Qed.

Lemma scale_linear (c : R) (u : vec) : ∀ a v,
  scale c (add u (scale a v)) = add (scale c u) (scale a (scale c v)).
Proof.
  unfold scale, add. induction u as [|x u IH]; intros a [|y v]; simpl; try done.
  f_equal; [lra|apply IH].
Qed.

Lemma conjugate_gradient_residual_witness :
  (scale 2 (zeros_like [2; 4]) = zeros_like [2; 4]
   ∧ ∀ u a v, scale 2 (add u (scale a v)) = add (scale 2 u) (scale a (scale 2 v)))
  ∧ ∃ k, (k ≤ 3)%nat
      ∧ conjugate_gradient (scale 2) [2; 4] 3 = cg_x (cg_iterate (scale 2) [2; 4] k)
      ∧ sub [2; 4] (scale 2 (conjugate_gradient (scale 2) [2; 4] 3))
          = cg_r (cg_iterate (scale 2) [2; 4] k).
Proof.
  assert (Hzero : scale 2 (zeros_like [2; 4]) = zeros_like [2; 4]).
  { unfold scale, zeros_like; simpl. repeat (f_equal; try lra). }
  split; [split; [exact Hzero|apply scale_linear]|].
  exact (conjugate_gradient_residual (scale 2) [2; 4] 3 Hzero (scale_linear 2)).
Defined.

(** ** The curvature operator *)

Lemma dot_add_r (v a b : vec) :
  length a = length b → dot v (add a b) = dot v a + dot v b.
Proof.
  unfold dot, sum, add. revert a b.
  induction v as [|x v IH]; intros [|y a] [|z b] Hlen; simpl in *; try done; try lra.
  transitivity (x * (y + z)
                + (foldr Rplus 0 (zip_with Rmult v a) + foldr Rplus 0 (zip_with Rmult v b)));
    [f_equal; apply IH; lia|lra].
Qed.

Lemma dot_self_pos (v : vec) i a : v !! i = Some a → a ≠ 0 → 0 < dot v v.
Proof.
  revert i. induction v as [|x v IH]; intros i Hi Ha; [done|].
  pose proof (dot_self_nonneg v) as Hv.
  change (0 < x * x + dot v v).
  destruct i as [|i]; simpl in Hi.
  - injection Hi as ->. assert (0 < a * a) by nra. lra.
  - pose proof (IH i Hi Ha). nra.
Qed.

(** X12. The damping term makes the operator of the solver strictly
    positive: when the curvature product G(v) returned by the engine has the
    shape of v and v.G(v) >= 0, then v.Hv(v) >= 0.01 (v.v), which is positive
    for every v with a nonzero component; the divisor p.Hv(p) of the
    conjugate-gradient step is then not 0. *)
Theorem Hv_damping_positive {Obs}
    (flat_grad_grad_kl : vec → list Obs → vec → vec)
    (policy : Policy) (obs_t : list Obs) (v : vec) :
  length (flat_grad_grad_kl (params policy) obs_t v) = length v →
  0 <= dot v (flat_grad_grad_kl (params policy) obs_t v) →
  damping * dot v v <= dot v (Hv flat_grad_grad_kl policy obs_t v)
  ∧ ((∃ i a, v !! i = Some a ∧ a ≠ 0) →
     0 < dot v (Hv flat_grad_grad_kl policy obs_t v)).
Proof.
  intros Hlen Hpsd. unfold Hv.
  rewrite dot_add_r by (by rewrite length_scale).
  rewrite dot_scale_r.
  split; [lra|].
  intros (i & a & Hi & Ha).
  pose proof (dot_self_pos v i a Hi Ha). unfold damping in *. nra.
Qed.

Lemma Hv_damping_positive_witness :
  let flat_grad_grad_kl := λ (_ : vec) (_ : list unit) (v : vec), scale 3 v in
  let policy := {| params := [0; 0]; KL_bound := 1/1000; backtrack_coeff := 8/10 |} in
  (length (flat_grad_grad_kl (params policy) [()] [1; 2]) = length [1; 2]
   ∧ 0 <= dot [1; 2] (flat_grad_grad_kl (params policy) [()] [1; 2]))
  ∧ 0 < dot [1; 2] (Hv flat_grad_grad_kl policy [()] [1; 2]).
Proof.
  intros flat_grad_grad_kl policy.
  assert (Hlen : length (flat_grad_grad_kl (params policy) [()] [1; 2]) = length [1; 2])
    by done.
  assert (Hpsd : 0 <= dot [1; 2] (flat_grad_grad_kl (params policy) [()] [1; 2])).
  { unfold flat_grad_grad_kl, dot, sum, scale; simpl. lra. }
  split; [done|].
  destruct (Hv_damping_positive flat_grad_grad_kl policy [()] [1; 2] Hlen Hpsd)
    as [_ Hpos].
  apply Hpos. exists 0%nat, 1. split; [done|lra].
Defined.

(** ** The line search and the model it writes to *)

Lemma bls_loop_success_model (f : bool → Policy → R) m initial_loss x p c attempts :
  ∀ alpha model,
    let search := bls_loop f m initial_loss x p c attempts alpha model in
    search.2.1 = true →
    get_model_params search.1 = search.2.2 ∧ f false search.1 < initial_loss.
Proof.
  induction attempts as [|attempts IH]; intros alpha model; [done|].
  destruct (decide (accepted f model m initial_loss x p c alpha)) as [Hacc|Hrej].
  - rewrite (bls_loop_accept _ _ _ _ _ _ _ _ _ Hacc). simpl. intros _.
    split; [done|]. destruct Hacc as [_ Hgain]. lra.
  - rewrite (bls_loop_reject _ _ _ _ _ _ _ _ _ Hrej). apply IH.
Qed.

Lemma bls_loop_failure_model (f : bool → Policy → R) m initial_loss x p c attempts :
  ∀ alpha model,
    let search := bls_loop f m initial_loss x p c (S attempts) alpha model in
    search.2.1 = false →
    get_model_params search.1 = add x (scale (alpha ^ (2 ^ attempts)) p).
Proof.
  induction attempts as [|attempts IH]; intros alpha model;
    destruct (decide (accepted f model m initial_loss x p c alpha)) as [Hacc|Hrej];
    try (by rewrite (bls_loop_accept _ _ _ _ _ _ _ _ _ Hacc));
    rewrite (bls_loop_reject _ _ _ _ _ _ _ _ _ Hrej).
  - simpl. intros _. by rewrite Rmult_1_r.
  - intros search Hfail. rewrite <- pow_two_pow_succ. by apply IH.
Qed.

(** X13. A successful search leaves the model holding the parameters it
    returns, and the loss of the model is then strictly below the loss the
    model had when the search was called. *)
Theorem backtrack_line_search_success (f : bool → Policy → R)
    model grad_f x p alpha_0 c max :
  let search := backtrack_line_search f model grad_f x p alpha_0 c max in
  search.2.1 = true →
  get_model_params search.1 = search.2.2 ∧ f false search.1 < f false model.
Proof.
  intros search Hsuccess. unfold search, backtrack_line_search in *.
  by apply bls_loop_success_model.
Qed.

Lemma backtrack_line_search_success_witness :
  let f := λ (_ : bool) (model : Policy), sum (params model) in
  let model := {| params := [0]; KL_bound := 1/1000; backtrack_coeff := 1/2 |} in
  let search := backtrack_line_search f model [-1] [0] [-1] (1/2) (1/10) 10 in
  search.2.1 = true
  ∧ get_model_params search.1 = search.2.2 ∧ f false search.1 < f false model.
Proof.
  intros f model search.
  assert (Hacc : accepted f model (dot [-1] [-1]) (f false model) [0] [-1] (1/10) (1/2)).
  { unfold accepted, f, dot, sum, add, scale; simpl. split; [|lra].
    replace ((0 + 0 - (0 + 1 / 2 * -1 + 0)) / ((-1 * -1 + 0) * (1 / 2)))
      with 1 by field. lra. }
  assert (Htrue : search.2.1 = true).
  { unfold search, backtrack_line_search.
    change 10%nat with (S 9). by rewrite (bls_loop_accept _ _ _ _ _ _ _ _ _ Hacc). }
  split; [exact Htrue|].
  exact (backtrack_line_search_success f model [-1] [0] [-1] (1/2) (1/10) 10 Htrue).
Defined.

Lemma add_scale_neq (x p : vec) (s : R) i a :
  (i < length x)%nat → p !! i = Some a → a ≠ 0 → s ≠ 1 →
  add x (scale s p) ≠ add x p.
Proof.
  unfold add, scale. revert p i.
  induction x as [|x0 x IH]; intros [|p0 p] i Hi Hp Ha Hs; simpl in *; try done; try lia.
  destruct i as [|i]; simpl in *.
  - injection Hp as ->. intros Heq. injection Heq as Heq _. nra.
  - intros Heq. injection Heq as _ Heq. revert Heq. apply (IH p i); [lia|done|done|done].
Qed.

(** X14. After a failed search of max >= 1 attempts the search returns
    x + p, while the model is left holding the last candidate tried,
    x + alpha_0 ^ (2 ^ (max - 1)) p; the two differ whenever that scale is not
    1 and p has a nonzero component, so the model holds the returned parameters
    only once the caller writes them. *)
Theorem backtrack_line_search_failure_model (f : bool → Policy → R)
    model grad_f x p alpha_0 c max :
  let search := backtrack_line_search f model grad_f x p alpha_0 c (S max) in
  search.2.1 = false →
  search.2.2 = add x p
  ∧ get_model_params search.1 = add x (scale (alpha_0 ^ (2 ^ max)) p)
  ∧ (alpha_0 ^ (2 ^ max) ≠ 1 →
     (∃ i a, (i < length x)%nat ∧ p !! i = Some a ∧ a ≠ 0) →
     get_model_params search.1 ≠ search.2.2).
Proof.
  intros search Hfail.
  assert (Hret : search.2.2 = add x p) by (by apply bls_loop_failure).
  assert (Hmodel : get_model_params search.1 = add x (scale (alpha_0 ^ (2 ^ max)) p))
    by (by apply bls_loop_failure_model).
  split; [exact Hret|]. split; [exact Hmodel|].
  intros Hscale (i & a & Hi & Hp & Ha).
  rewrite Hret, Hmodel. by apply (add_scale_neq x p _ i a).
Qed.

Lemma backtrack_line_search_failure_model_witness :
  let f := λ (_ : bool) (model : Policy), sum (params model) in
  let model := {| params := [0]; KL_bound := 1/1000; backtrack_coeff := 1/2 |} in
  let search := backtrack_line_search f model [-1] [0] [1] (1/2) (1/10) 3 in
  (search.2.1 = false
   ∧ (1/2) ^ (2 ^ 2) ≠ 1
   ∧ ∃ i a, (i < length [0])%nat ∧ [1] !! i = Some a ∧ a ≠ 0)
  ∧ search.2.2 = add [0] [1]
  ∧ get_model_params search.1 = add [0] (scale ((1/2) ^ (2 ^ 2)) [1])
  ∧ get_model_params search.1 ≠ search.2.2.
Proof.
  intros f model search.
  assert (Hrej : ∀ k, (k < 3)%nat →
       ¬ accepted f model (dot [-1] [1]) (f false model) [0] [1] (1/10) ((1/2) ^ (2 ^ k))).
  { intros k _ [_ Hgain]. revert Hgain.
    unfold f, sum, add, scale; simpl.
    assert (0 < (1/2) ^ (2 ^ k)) by (apply pow_lt; lra). lra. }
  assert (Hfalse : search.2.1 = false).
  { unfold search, backtrack_line_search.
    by rewrite (bls_loop_exhausted f _ _ _ _ _ 3 (1/2) model Hrej). }
  assert (Hscale : (1/2) ^ (2 ^ 2) ≠ 1) by (simpl; lra).
  assert (Hp : ∃ i a, (i < length [0])%nat ∧ [1] !! i = Some a ∧ a ≠ 0).
  { exists 0%nat, 1. split; [simpl; lia|]. split; [done|lra]. }
  split; [done|].
  destruct (backtrack_line_search_failure_model f model [-1] [0] [1] (1/2) (1/10) 2 Hfalse)
    as (Hret & Hmodel & Hneq).
  split; [exact Hret|]. split; [exact Hmodel|exact (Hneq Hscale Hp)].
Defined.

(** ** Normalisation and the surrogate loss *)

Lemma sum_app (u v : vec) : sum (u ++ v) = sum u + sum v.
Proof.
  unfold sum. induction u as [|x u IH]; simpl; [lra|]. rewrite IH. lra.
Qed.

Lemma length_normalize (v : vec) : length (normalize v) = length v.
Proof. apply length_fmap. Qed.

Lemma sum_shifted (m s : R) (v : vec) :
  sum ((λ a, (a - m) / s) <$> v) = (sum v - INR (length v) * m) / s.
Proof.
  unfold sum. induction v as [|x v IH]; [simpl; unfold Rdiv; ring|].
  change (length (x :: v)) with (S (length v)). rewrite S_INR.
  transitivity ((x - m) / s + (foldr Rplus 0 v - INR (length v) * m) / s);
    [simpl; f_equal; exact IH|simpl; unfold Rdiv; ring].
Qed.

Lemma sum_squares_scaled (m s : R) (v : vec) :
  s ≠ 0 →
  sum ((λ y, (y - 0) * (y - 0)) <$> ((λ a, (a - m) / s) <$> v))
    = sum ((λ x, (x - m) * (x - m)) <$> v) / (s * s).
Proof.
  intros Hs. unfold sum. induction v as [|x v IH]; [simpl; unfold Rdiv; ring|].
  transitivity ((x - m) / s * ((x - m) / s)
                + foldr Rplus 0 ((λ x, (x - m) * (x - m)) <$> v) / (s * s)).
  - simpl. f_equal; [unfold Rdiv; ring|exact IH].
  - rewrite fmap_cons. cbn [foldr]. field. done.
Qed.

Lemma sum_nonempty (v : vec) : sum v ≠ 0 → (0 < length v)%nat.
Proof. destruct v; simpl; [done|lia]. Qed.

Lemma std_radicand_pos (v : vec) :
  std v ≠ 0 →
  0 < sum ((λ x, (x - mean v) * (x - mean v)) <$> v) / (INR (length v) - 1).
Proof.
  unfold std. intros Hstd.
  destruct (Rlt_le_dec 0 (sum ((λ x, (x - mean v) * (x - mean v)) <$> v)
                          / (INR (length v) - 1))) as [Hpos|Hneg]; [done|].
  by rewrite sqrt_neg_0 in Hstd.
Qed.

Lemma std_nonzero_nonempty (v : vec) : std v ≠ 0 → (0 < length v)%nat.
Proof.
  intros Hstd. pose proof (std_radicand_pos v Hstd) as Hpos.
  destruct v; [|simpl; lia].
  unfold sum in Hpos; simpl in Hpos. unfold Rdiv in Hpos. lra.
Qed.

Lemma normalize_mean (v : vec) : std v ≠ 0 → mean (normalize v) = 0.
Proof.
  intros Hstd.
  assert (Hn : INR (length v) ≠ 0).
  { apply not_0_INR. pose proof (std_nonzero_nonempty v Hstd). lia. }
  unfold mean at 1. unfold normalize. rewrite sum_shifted, length_fmap.
  unfold mean. field. done.
Qed.

Lemma normalize_std (v : vec) : std v ≠ 0 → std (normalize v) = 1.
Proof.
  intros Hstd.
  pose proof (std_radicand_pos v Hstd) as Hpos.
  assert (Hsq : std v * std v
                = sum ((λ x, (x - mean v) * (x - mean v)) <$> v) / (INR (length v) - 1)).
  { unfold std. apply sqrt_sqrt. lra. }
  unfold std at 1. rewrite (normalize_mean v Hstd), length_normalize.
  unfold normalize. rewrite sum_squares_scaled by done.
  replace (sum ((λ x, (x - mean v) * (x - mean v)) <$> v) / (std v * std v)
           / (INR (length v) - 1))
    with (sum ((λ x, (x - mean v) * (x - mean v)) <$> v) / (INR (length v) - 1)
          / (std v * std v)) by (unfold Rdiv; ring).
  rewrite <- Hsq.
  replace (std v * std v / (std v * std v)) with 1 by (field; done).
  apply sqrt_1.
Qed.

(** X15. When the standard deviation of a tensor is not 0, the normalisation
    of line 144 yields a tensor of the same length with mean 0 and standard
    deviation 1. *)
Theorem normalize_zero_mean_unit_std (v : vec) :
  std v ≠ 0 →
  length (normalize v) = length v ∧ mean (normalize v) = 0 ∧ std (normalize v) = 1.
Proof.
  intros Hstd. split; [apply length_normalize|].
  split; [by apply normalize_mean|by apply normalize_std].
Qed.

Lemma std_1_3 : std [1; 3] = sqrt 2.
Proof.
  unfold std, mean, sum; simpl. f_equal. field.
Qed.

Lemma normalize_zero_mean_unit_std_witness :
  std [1; 3] ≠ 0
  ∧ mean (normalize [1; 3]) = 0 ∧ std (normalize [1; 3]) = 1.
Proof.
  assert (Hstd : std [1; 3] ≠ 0).
  { rewrite std_1_3. apply Rgt_not_eq, sqrt_lt_R0. lra. }
  split; [exact Hstd|].
  destruct (normalize_zero_mean_unit_std [1; 3] Hstd) as (_ & Hmean & Hunit).
  split; [exact Hmean|exact Hunit].
Defined.

Lemma exp_sub_self (l : vec) : exp <$> sub l l = replicate (length l) 1.
Proof.
  unfold sub. induction l as [|x l IH]; [done|].
  cbn [zip_with length replicate]. rewrite fmap_cons, IH.
  f_equal. rewrite Rminus_diag. apply exp_0.
Qed.

Lemma sum_scaled_ones (c : R) (n : nat) : sum ((λ x, x * c) <$> replicate n 1) = INR n * c.
Proof. rewrite fmap_replicate, sum_replicate. lra. Qed.

Lemma sum_broadcast_ones (n : nat) (col : vec) :
  sum (broadcast_mul (replicate n 1) col) = INR n * sum col.
Proof.
  unfold broadcast_mul. induction col as [|c col IH]; [simpl; lra|].
  change ((c :: col) ≫= λ c0, (λ x, x * c0) <$> replicate n 1)
    with (((λ x, x * c) <$> replicate n 1)
          ++ (col ≫= λ c0, (λ x, x * c0) <$> replicate n 1)).
  rewrite sum_app, sum_scaled_ones, IH.
  unfold sum; simpl. lra.
Qed.

Lemma length_broadcast_mul (row col : vec) :
  length (broadcast_mul row col) = (length col * length row)%nat.
Proof.
  unfold broadcast_mul. induction col as [|c col IH]; [done|].
  change ((c :: col) ≫= λ c0, (λ x, x * c0) <$> row)
    with (((λ x, x * c) <$> row) ++ (col ≫= λ c0, (λ x, x * c0) <$> row)).
  rewrite length_app, length_fmap, IH. simpl. lia.
Qed.

Lemma mean_broadcast_ones (n : nat) (col : vec) :
  (0 < n)%nat → (0 < length col)%nat →
  mean (broadcast_mul (replicate n 1) col) = mean col.
Proof.
  intros Hn Hcol. unfold mean.
  rewrite sum_broadcast_ones, length_broadcast_mul, length_replicate, mult_INR.
  field. split; apply not_0_INR; lia.
Qed.

(** X16. At the parameters the old log-probabilities were taken at, every
    probability ratio is exp(0) = 1 and the surrogate loss is minus the mean of
    its weights; with the normalised weights of [trpo_update] (standard
    deviation not 0) the loss the line search starts from is therefore 0. *)
Theorem surrogate_at_old_params {Obs}
    (log_probs_at : vec → list Obs → list nat → vec)
    (policy : Policy) (obs_t : list Obs) (actions_t : list nat)
    (weights first : vec) (grad : bool) :
  (0 < length (log_probs_at (params policy) obs_t actions_t))%nat →
  (0 < length weights)%nat →
  std first ≠ 0 →
  surrogate log_probs_at policy obs_t actions_t weights grad policy = - mean weights
  ∧ surrogate log_probs_at policy obs_t actions_t (normalize first) grad policy = 0.
Proof.
  intros Hlp Hw Hstd.
  assert (Hloss : ∀ w, (0 < length w)%nat →
            surrogate log_probs_at policy obs_t actions_t w grad policy = - mean w).
  { intros w Hlen. unfold surrogate, loss_fn, log_probs.
    destruct grad; by rewrite exp_sub_self, mean_broadcast_ones. }
  split; [by apply Hloss|].
  rewrite Hloss by (rewrite length_normalize; by apply std_nonzero_nonempty).
  rewrite normalize_mean by done. lra.
Qed.

Lemma surrogate_at_old_params_witness :
  let log_probs_at := λ (θ : vec) (_ : list unit) (_ : list nat), θ in
  let policy := {| params := [-1; -2]; KL_bound := 1/1000; backtrack_coeff := 8/10 |} in
  ((0 < length (log_probs_at (params policy) [(); ()] [0%nat; 1%nat]))%nat
   ∧ (0 < length [5; 7])%nat
   ∧ std [1; 3] ≠ 0)
  ∧ surrogate log_probs_at policy [(); ()] [0%nat; 1%nat] [5; 7] false policy
      = - mean [5; 7]
  ∧ surrogate log_probs_at policy [(); ()] [0%nat; 1%nat] (normalize [1; 3]) false policy
      = 0.
Proof.
  intros log_probs_at policy.
  assert (Hstd : std [1; 3] ≠ 0).
  { rewrite std_1_3. apply Rgt_not_eq, sqrt_lt_R0. lra. }
  assert (Hlp : (0 < length (log_probs_at (params policy) [(); ()] [0%nat; 1%nat]))%nat)
    by (simpl; lia).
  assert (Hw : (0 < length [5; 7])%nat) by (simpl; lia).
  split; [done|].
  exact (surrogate_at_old_params log_probs_at policy [(); ()] [0%nat; 1%nat]
           [5; 7] [1; 3] false Hlp Hw Hstd).
Defined.

(** ** The update as a whole *)

(** X17. When the actions, the value estimates or the masks are fewer than
    the rewards, [trpo_update] raises: the estimator's IndexError is not
    caught. *)
Theorem trpo_update_index_error {Obs} junk (value_net : list Obs → vec)
    log_probs_at autograd_grad flat_grad_grad_kl
    policy observations actions rewards mask gamma tau :
  (length actions < length rewards
   ∨ length (value_net observations) < length rewards
   ∨ length mask < length rewards)%nat →
  estimate_advantage junk value_net observations rewards actions mask gamma tau = None
  ∧ trpo_update junk value_net log_probs_at autograd_grad flat_grad_grad_kl
        policy observations actions rewards mask gamma tau = None.
Proof.
  intros Hshort.
  assert (E : estimate_advantage junk value_net observations rewards actions mask
                gamma tau = None) by (by apply estimate_advantage_index_error).
  split; [exact E|]. unfold trpo_update. by rewrite E.
Qed.

Lemma trpo_update_index_error_witness :
  let value_net := λ _ : list unit, [0; 0] in
  let log_probs_at := λ (_ : vec) (_ : list unit) (_ : list nat), [0; 0] in
  let autograd_grad := λ (_ : vec → R) (_ : vec), [1] in
  let flat_grad_grad_kl := λ (_ : vec) (_ : list unit) (v : vec), v in
  let policy := {| params := [0]; KL_bound := 1/1000; backtrack_coeff := 8/10 |} in
  (length [0%nat; 0%nat] < length [1; 1]
   ∨ length (value_net [(); ()]) < length [1; 1]
   ∨ length [1] < length [1; 1])%nat
  ∧ trpo_update (λ _ _, 0) value_net log_probs_at autograd_grad flat_grad_grad_kl
        policy [(); ()] [0%nat; 0%nat] [1; 1] [1] (1/2) (1/2) = None.
Proof.
  intros value_net log_probs_at autograd_grad flat_grad_grad_kl policy.
  assert (Hshort : (length [0%nat; 0%nat] < length [1; 1]
                    ∨ length (value_net [(); ()]) < length [1; 1]
                    ∨ length [1] < length [1; 1])%nat) by (simpl; lia).
  split; [exact Hshort|].
  apply (trpo_update_index_error (λ _ _, 0) value_net log_probs_at autograd_grad
           flat_grad_grad_kl policy [(); ()] [0%nat; 0%nat] [1; 1] [1] (1/2) (1/2) Hshort).
Defined.



(** X19. When the rewards, the actions, the value estimates and the masks have
    one length, every row of both output buffers is written: the result does
    not depend on what the uninitialised memory of [torch.Tensor] held. *)
Theorem estimate_advantage_no_uninitialized {Obs} junk1 junk2
    (value_net : list Obs → vec) states rewards actions masks gamma tau :
  length (value_net states) = length rewards →
  length actions = length rewards →
  length masks = length rewards →
  estimate_advantage junk1 value_net states rewards actions masks gamma tau
    = estimate_advantage junk2 value_net states rewards actions masks gamma tau
  ∧ is_Some (estimate_advantage junk1 value_net states rewards actions masks gamma tau).
Proof.
  intros Hv Ha Hm.
  rewrite !estimate_advantage_closed_form by done.
  split; [done|by eexists].
Qed.

Lemma estimate_advantage_no_uninitialized_witness :
  let value_net := λ _ : list unit, [1; 0] in
  (length (value_net [(); ()]) = length [1; 1]
   ∧ length [0%nat; 0%nat] = length [1; 1] ∧ length [1; 0] = length [1; 1])
  ∧ estimate_advantage (λ _ _, 0) value_net [(); ()] [1; 1] [0%nat; 0%nat] [1; 0] (1/2) (1/2)
    = estimate_advantage (λ k i, INR k + INR i + 1) value_net [(); ()] [1; 1]
        [0%nat; 0%nat] [1; 0] (1/2) (1/2).
Proof.
  intros value_net. split; [done|].
  by apply (estimate_advantage_no_uninitialized (λ _ _, 0) (λ k i, INR k + INR i + 1)
              value_net
              [(); ()] [1; 1] [0%nat; 0%nat] [1; 0] (1/2) (1/2)).
Defined.
